(** * Note Keeper: the in-memory notes repository

    A shallow embedding of [api/models/note_models.py] and of
    [InMemoryNotesRepository] from [api/repositories/notes_repository.py],
    then of the settings ([api/core/settings.py]), the database
    placeholder, the service ([api/services/notes_service.py]) and the
    route handlers ([api/routers/notes.py]), followed by their properties.

    Conventions of the embedding:
    - a Python [str] is a [string]; [Optional[str]] is [option string];
      [str.lower] is a parameter of [list], which is its only user;
      [ascii_lower] is the instance the examples run with, and
      [greek_lower] the one for Greek text;
    - a [datetime] is a point on the integer time line ([Z]);
    - a [dict] keeps its keys in insertion order, so [self._items] is an
      association list with the operations of [Dict] below;
    - the two readings of the environment, [datetime.utcnow()] and
      [str(uuid4())], are arguments of the methods that perform them;
    - a method takes the store and returns the store it leaves behind
      together with its result. *)

From Stdlib Require Import List String Ascii ZArith Bool Lia.
Import ListNotations.
Local Open Scope string_scope.
Local Open Scope Z_scope.

(** ** Python primitives used by the repository *)

(** Truth value of a [str]: the empty string is falsy. *)
Definition truthy (s : string) : bool :=
  match s with
  | EmptyString => false
  | String _ _ => true
  end.

(** [xs or ys] on lists: the left operand unless it is empty. *)
Definition or_list {A : Type} (xs ys : list A) : list A :=
  match xs with
  | [] => ys
  | _ :: _ => xs
  end.

(** [a.startswith-at-0] test used by the substring search. *)
Fixpoint starts_with (a b : string) : bool :=
  match a, b with
  | EmptyString, _ => true
  | String _ _, EmptyString => false
  | String x a', String y b' => Ascii.eqb x y && starts_with a' b'
  end.

(** [a in b] on strings: [a] occurs in [b] at some position. *)
Fixpoint str_in (a b : string) : bool :=
  starts_with a b ||
  match b with
  | EmptyString => false
  | String _ b' => str_in a b'
  end.

(** Normalisation of one bound of a slice over a sequence of length
    [len]: a negative bound counts from the end, and every bound is
    clamped into [0, len]. *)
Definition slice_bound (len i : Z) : Z :=
  if i <? 0 then Z.max 0 (i + len) else Z.min i len.

(** [l[start:stop]]. *)
Definition slice {A : Type} (l : list A) (start stop : Z) : list A :=
  let len := Z.of_nat (List.length l) in
  let lo := slice_bound len start in
  let hi := slice_bound len stop in
  firstn (Z.to_nat (hi - lo)) (skipn (Z.to_nat lo) l).

(** What [str.lower] computes on ASCII text; the repository itself is
    stated for an arbitrary lowering function. *)
Definition ascii_lower_char (c : ascii) : ascii :=
  let n := nat_of_ascii c in
  if (Nat.leb 65 n && Nat.leb n 90)%bool then ascii_of_nat (n + 32) else c.

Fixpoint ascii_lower (s : string) : string :=
  match s with
  | EmptyString => EmptyString
  | String c s' => String (ascii_lower_char c) (ascii_lower s')
  end.

(** ** Insertion-ordered dictionaries with string keys *)

Module Dict.
Section Ops.
Context {V : Type}.

Definition t := list (string * V).

Definition empty : t := [].

(** [d.get(k)] *)
Fixpoint get (k : string) (d : t) : option V :=
  match d with
  | [] => None
  | (k', v) :: d' => if String.eqb k k' then Some v else get k d'
  end.

(** [k in d] *)
Definition contains (k : string) (d : t) : bool :=
  match get k d with
  | Some _ => true
  | None => false
  end.

(** [d[k] = v]: an existing key keeps its position, a new key goes
  to the end. *)
Fixpoint set (k : string) (v : V) (d : t) : t :=
  match d with
  | [] => [(k, v)]
  | (k', v') :: d' =>
      if String.eqb k k' then (k, v) :: d' else (k', v') :: set k v d'
  end.

(** [d.pop(k, None)]: the value removed, if any, and what is left. *)
Fixpoint pop (k : string) (d : t) : option V * t :=
  match d with
  | [] => (None, [])
  | (k', v') :: d' =>
      if String.eqb k k' then (Some v', d')
      else let (r, d'') := pop k d' in (r, (k', v') :: d'')
  end.

(** [d.values()], in insertion order. *)
Definition values (d : t) : list V := map snd d.

Definition keys (d : t) : list string := map fst d.

(** A dictionary holds each key once. *)
Definition wf (d : t) : Prop := NoDup (keys d).

(** The entries of [d] stored under a key other than [k]. *)
Definition others (k : string) (d : t) : t :=
  filter (fun e => negb (String.eqb k (fst e))) d.
End Ops.
Arguments t : clear implicits.
End Dict.

(** ** Models ([note_models.py]) *)

Module NoteCreate.
Record t := mk {
  title : string;
  content : option string;
  tags : list string
}.
End NoteCreate.

(** The names of the fields of a [NoteUpdate]. *)
Inductive FieldName := FTitle | FContent | FTags.

Module NoteUpdate.
(** [model_fields_set] is the attribute every pydantic model carries:
    the fields the payload mentioned, whether with a value or with
    [null]. *)
Record t := mk {
  title : option string;
  content : option string;
  tags : option (list string);
  model_fields_set : list FieldName
}.
End NoteUpdate.

Module Note.
Record t := mk {
  id : string;
  title : string;
  content : option string;
  tags : list string;
  created_at : Z;
  updated_at : Z
}.
End Note.

(** ** The repository ([notes_repository.py]) *)

Module InMemoryNotesRepository.

(** The state of the object is its one attribute, [self._items]. *)
Definition t := Dict.t Note.t.

Definition init : t := Dict.empty.

Definition create (now : Z) (uuid4 : string) (data : NoteCreate.t)
    (self : t) : t * Note.t :=
  let note :=
    Note.mk uuid4
            (NoteCreate.title data)
            (NoteCreate.content data)
            (or_list (NoteCreate.tags data) [])
            now
            now in
  (Dict.set (Note.id note) note self, note).

Definition get (note_id : string) (self : t) : option Note.t :=
  Dict.get note_id self.

Section Listing.
(** [str.lower] *)
Variable lower : string -> string.

(** The condition of the comprehension in [list]. *)
Definition keeps (q_lower : string) (n : Note.t) : bool :=
  str_in q_lower (lower (Note.title n)) ||
  match Note.content n with
  | None => false
  | Some c => truthy c && str_in q_lower (lower c)
  end.

Definition list (q : option string) (limit offset : Z) (self : t)
    : Z * Datatypes.list Note.t :=
  let items := Dict.values self in
  let items :=
    match q with
    | Some q' =>
        if truthy q' then
          let q_lower := lower q' in
          filter (keeps q_lower) items
        else items
    | None => items
    end in
  let total := Z.of_nat (List.length items) in
  (total, slice items offset (offset + limit)).
End Listing.

Definition replace (now : Z) (note_id : string) (data : NoteCreate.t)
    (self : t) : t * option Note.t :=
  if negb (Dict.contains note_id self) then (self, None)
  else
    match Dict.get note_id self with
    | None => (self, None)
    | Some old =>
        let note :=
          Note.mk note_id
                  (NoteCreate.title data)
                  (NoteCreate.content data)
                  (or_list (NoteCreate.tags data) [])
                  (Note.created_at old)
                  now in
        (Dict.set note_id note self, Some note)
    end.

Definition update (now : Z) (note_id : string) (data : NoteUpdate.t)
    (self : t) : t * option Note.t :=
  if negb (Dict.contains note_id self) then (self, None)
  else
    match Dict.get note_id self with
    | None => (self, None)
    | Some note =>
        let updated :=
          Note.mk (Note.id note)
                  (match NoteUpdate.title data with
                   | Some v => v
                   | None => Note.title note
                   end)
                  (match NoteUpdate.content data with
                   | Some v => Some v
                   | None => Note.content note
                   end)
                  (match NoteUpdate.tags data with
                   | Some v => v
                   | None => Note.tags note
                   end)
                  (Note.created_at note)
                  now in
        (Dict.set note_id updated self, Some updated)
    end.

Definition delete (note_id : string) (self : t) : t * bool :=
  let (popped, rest) := Dict.pop note_id self in
  (rest, match popped with Some _ => true | None => false end).

End InMemoryNotesRepository.

Module Repo := InMemoryNotesRepository.

(** ** Sequences of calls

    A client drives the repository one call at a time.  Each call comes
    with what the environment answers while it runs: the clock reading of
    [datetime.utcnow()] and the identifier drawn by [uuid4()]. *)

Record Reading := {
  utcnow : Z;
  uuid4 : string
}.

Inductive Call :=
| Create (data : NoteCreate.t)
| Get (note_id : string)
| List (q : option string) (limit offset : Z)
| Replace (note_id : string) (data : NoteCreate.t)
| Update (note_id : string) (data : NoteUpdate.t)
| Delete (note_id : string).

Inductive Result :=
| RNote (note : Note.t)
| ROptional (note : option Note.t)
| RPage (total : Z) (items : list Note.t)
| RBool (removed : bool).

Section Calls.
Variable lower : string -> string.

Definition call (r : Reading) (c : Call) (self : InMemoryNotesRepository.t)
    : InMemoryNotesRepository.t * Result :=
  match c with
  | Create data =>
      let (self', note) :=
        InMemoryNotesRepository.create (utcnow r) (uuid4 r) data self in
      (self', RNote note)
  | Get note_id =>
      (self, ROptional (InMemoryNotesRepository.get note_id self))
  | List q limit offset =>
      let (total, items) :=
        InMemoryNotesRepository.list lower q limit offset self in
      (self, RPage total items)
  | Replace note_id data =>
      let (self', res) :=
        InMemoryNotesRepository.replace (utcnow r) note_id data self in
      (self', ROptional res)
  | Update note_id data =>
      let (self', res) :=
        InMemoryNotesRepository.update (utcnow r) note_id data self in
      (self', ROptional res)
  | Delete note_id =>
      let (self', removed) := InMemoryNotesRepository.delete note_id self in
      (self', RBool removed)
  end.

Fixpoint run (calls : list (Reading * Call))
    (self : InMemoryNotesRepository.t) : InMemoryNotesRepository.t :=
  match calls with
  | [] => self
  | (r, c) :: rest => run rest (fst (call r c self))
  end.
End Calls.

(** The key a call writes or removes, if it is a mutating call. *)
Definition target (r : Reading) (c : Call) : option string :=
  match c with
  | Create _ => Some (uuid4 r)
  | Replace note_id _ | Update note_id _ | Delete note_id => Some note_id
  | Get _ | List _ _ _ => None
  end.

(** The key under which a call can store a note that was not there. *)
Definition introduces (e : Reading * Call) : option string :=
  match snd e with
  | Create _ => Some (uuid4 (fst e))
  | _ => None
  end.

(** The clock readings of a sequence of calls never go back, starting
    from the reading [t]. *)
Fixpoint non_decreasing (t : Z) (calls : list (Reading * Call)) : Prop :=
  match calls with
  | [] => True
  | (r, _) :: rest => t <= utcnow r /\ non_decreasing (utcnow r) rest
  end.

(** ** Vocabulary of the properties *)

(** Every note of the store was stamped by readings up to [t], its
    creation no later than its last update. *)
Definition stamped_by (t : Z) (self : InMemoryNotesRepository.t) : Prop :=
  forall k n, In (k, n) self ->
    Note.created_at n <= Note.updated_at n /\ Note.updated_at n <= t.

Definition ordered (self : InMemoryNotesRepository.t) : Prop :=
  forall k n, In (k, n) self -> Note.created_at n <= Note.updated_at n.

Section Matching.
Variable lower : string -> string.

(** The lowered [s] contains the lowered [q]: [q.lower()] occurs in
    [s.lower()]. *)
Definition lowered_contains (q s : string) : Prop :=
  exists pre post, lower s = pre ++ lower q ++ post.

(** The lowered query occurs in the lowered title or in the lowered
    content of [n]. *)
Definition lowered_match (q : string) (n : Note.t) : Prop :=
  lowered_contains q (Note.title n) \/
  exists c, Note.content n = Some c /\ lowered_contains q c.

(** [s] contains [q] as a substring once case is disregarded: some
    stretch of [s] is [q] up to the case of its letters.  A stretch
    that is [q] itself is one. *)
Definition caseless_contains (q s : string) : Prop :=
  exists pre mid post, s = pre ++ mid ++ post /\ lower mid = lower q.

(** The title or the content of [n] contains [q], case disregarded. *)
Definition caseless_match (q : string) (n : Note.t) : Prop :=
  caseless_contains q (Note.title n) \/
  exists c, Note.content n = Some c /\ caseless_contains q c.
End Matching.

(** What [str.lower] computes on text made of the Greek letters
    [Α]..[Ω] and [α]..[ω] alone, written in UTF-8 (two bytes a letter,
    the capitals with the lead byte 206).  A capital goes to its small
    letter; a capital sigma goes to the final form [ς] when a letter
    comes before it and none after it, and to [σ] otherwise.  Searching
    one such text in another byte by byte finds what searching it
    letter by letter finds. *)
Definition greek_small (final : bool) (b : ascii) : string :=
  let n := nat_of_ascii b in
  if Nat.eqb n 163 then (if final then "ς" else "σ")
  else if Nat.eqb n 162 then String "206" (String b "")
  else if (Nat.leb 145 n && Nat.leb n 159)%bool
       then String "206" (String (ascii_of_nat (n + 32)) "")
  else if (Nat.leb 160 n && Nat.leb n 169)%bool
       then String "207" (String (ascii_of_nat (n - 32)) "")
  else String "206" (String b "").

Fixpoint greek_lower_from (preceded : bool) (s : string) : string :=
  match s with
  | EmptyString => EmptyString
  | String c rest =>
      match rest with
      | String b rest' =>
          if Ascii.eqb c "206" then
            greek_small (preceded && negb (truthy rest')) b
              ++ greek_lower_from true rest'
          else String c (greek_lower_from true rest)
      | EmptyString => String c EmptyString
      end
  end.

Definition greek_lower : string -> string := greek_lower_from false.

(** [Selected P l m]: [m] is [l] restricted to the elements satisfying
    [P], in the order of [l]. *)
Inductive Selected {A : Type} (P : A -> Prop) : list A -> list A -> Prop :=
| Selected_nil : Selected P [] []
| Selected_keep x l m : P x -> Selected P l m -> Selected P (x :: l) (x :: m)
| Selected_skip x l m : ~ P x -> Selected P l m -> Selected P (x :: l) m.

(** ** The sequence [list] works on *)

Section Listed.
Variable lower : string -> string.

(** The notes [list] counts and then slices: all of them in insertion
    order, or those the query keeps when a non-empty query is given. *)
Definition listed (q : option string) (self : InMemoryNotesRepository.t)
    : list Note.t :=
  match q with
  | Some q' =>
      if truthy q' then
        filter (InMemoryNotesRepository.keeps lower (lower q')) (Dict.values self)
      else Dict.values self
  | None => Dict.values self
  end.
End Listed.

(** Every note is stored under its own id. *)
Definition keyed (self : InMemoryNotesRepository.t) : Prop :=
  forall k n, In (k, n) self -> Note.id n = k.

(** The call neither deletes the entry under [k] nor creates a note
    over it. *)
Definition spares (k : string) (e : Reading * Call) : Prop :=
  match snd e with
  | Create _ => uuid4 (fst e) <> k
  | Delete note_id => note_id <> k
  | _ => True
  end.

(** [a or b] on optional values whose present values are all taken:
    the later payload's field if it has one, else the earlier one's. *)
Definition or_else {A : Type} (later earlier : option A) : option A :=
  match later with
  | Some v => Some v
  | None => earlier
  end.

(** One payload that stands for [earlier] followed by [later]. *)
Definition merged (earlier later : NoteUpdate.t) : NoteUpdate.t :=
  NoteUpdate.mk
    (or_else (NoteUpdate.title later) (NoteUpdate.title earlier))
    (or_else (NoteUpdate.content later) (NoteUpdate.content earlier))
    (or_else (NoteUpdate.tags later) (NoteUpdate.tags earlier))
    (NoteUpdate.model_fields_set earlier ++ NoteUpdate.model_fields_set later).

(** ** Field constraints ([note_models.py])

    [title] is declared with [max_length=200] in [NoteBase] and in
    [NoteUpdate]; pydantic checks it whenever a model is built from
    input. *)

Definition max_length : nat := 200.

Definition title_fits (title : string) : bool :=
  Nat.leb (String.length title) max_length.





(** ** Settings ([core/settings.py]) *)

(** [os.environ] *)
Definition Environ := string -> option string.

(** [os.getenv(key)] and [os.getenv(key, default)] *)
Definition getenv (environ : Environ) (key : string) : option string :=
  environ key.

Definition getenv_or (environ : Environ) (key default : string) : string :=
  match environ key with
  | Some v => v
  | None => default
  end.

(** [s.split(sep)] for a one-character separator: the part before the
    first separator and the parts after it. *)
Fixpoint split_parts (sep : ascii) (s : string) : string * list string :=
  match s with
  | EmptyString => (EmptyString, [])
  | String c s' =>
      let (p, ps) := split_parts sep s' in
      if Ascii.eqb c sep then (EmptyString, p :: ps) else (String c p, ps)
  end.

Definition split (sep : ascii) (s : string) : list string :=
  let (p, ps) := split_parts sep s in p :: ps.

(** [sep.join(parts)] *)
Fixpoint join (sep : string) (parts : list string) : string :=
  match parts with
  | [] => EmptyString
  | [p] => p
  | p :: ps => p ++ sep ++ join sep ps
  end.

(** [c in s] for a character. *)
Fixpoint has_char (c : ascii) (s : string) : bool :=
  match s with
  | EmptyString => false
  | String x s' => Ascii.eqb x c || has_char c s'
  end.

Definition truthy_opt (o : option string) : bool :=
  match o with
  | Some s => truthy s
  | None => false
  end.

Module AppSettings.
Record t := mk {
  environment : string;
  cors_allow_origins : list string;
  db_url : string;
  db_user : string;
  db_password : string;
  db_name : string;
  db_port : string
}.

Definition init (environ : Environ) : t :=
  mk (getenv_or environ "ENVIRONMENT" "development")
     (if truthy_opt (getenv environ "CORS_ALLOW_ORIGINS")
      then split "," (getenv_or environ "CORS_ALLOW_ORIGINS" "*")
      else ["*"])
     (getenv_or environ "NOTES_DB_URL" "")
     (getenv_or environ "NOTES_DB_USER" "")
     (getenv_or environ "NOTES_DB_PASSWORD" "")
     (getenv_or environ "NOTES_DB_NAME" "")
     (getenv_or environ "NOTES_DB_PORT" "").

Definition is_production (lower : string -> string) (self : t) : bool :=
  String.eqb (lower (environment self)) "production".
End AppSettings.

(** [get_app_settings()]: the module keeps the first settings it builds
    in [_settings_instance]. *)
Definition get_app_settings (environ : Environ)
    (_settings_instance : option AppSettings.t)
    : option AppSettings.t * AppSettings.t :=
  match _settings_instance with
  | None =>
      let created := AppSettings.init environ in
      (Some created, created)
  | Some cached => (Some cached, cached)
  end.

(** The settings handed out by successive calls, each made under its
    own environment. *)
Fixpoint settings_seen (environs : list Environ)
    (_settings_instance : option AppSettings.t) : list AppSettings.t :=
  match environs with
  | [] => []
  | environ :: rest =>
      let (instance', settings) := get_app_settings environ _settings_instance in
      settings :: settings_seen rest instance'
  end.

(** ** What a call can raise *)

Inductive Exception :=
| NotImplementedError (message : string)
| HTTPException (status_code : Z) (detail : string)
| ValidationError.

(** ** The database placeholder ([notes_repository.py]) *)

Module DatabaseNotesRepository.
Record t := mk {
  _db_url : string;
  _db_user : string;
  _db_password : string;
  _db_name : string;
  _db_port : string
}.

Definition init (environ : Environ) (_settings_instance : option AppSettings.t)
    : option AppSettings.t * t :=
  let (instance', settings) := get_app_settings environ _settings_instance in
  (instance',
   mk (AppSettings.db_url settings) (AppSettings.db_user settings)
      (AppSettings.db_password settings) (AppSettings.db_name settings)
      (AppSettings.db_port settings)).

Definition not_configured : Exception :=
  NotImplementedError "Database integration not configured.".

Definition create (data : NoteCreate.t) (self : t) : Exception + Note.t :=
  inl not_configured.

Definition get (note_id : string) (self : t) : Exception + option Note.t :=
  inl not_configured.

Definition replace (note_id : string) (data : NoteCreate.t) (self : t)
    : Exception + option Note.t :=
  inl not_configured.

Definition update (note_id : string) (data : NoteUpdate.t) (self : t)
    : Exception + option Note.t :=
  inl not_configured.

Definition delete (note_id : string) (self : t) : Exception + bool :=
  inl not_configured.
End DatabaseNotesRepository.

(** The two implementations of the abstract [NotesRepository]. *)
Inductive NotesRepository :=
| InMemory (repo : InMemoryNotesRepository.t)
| Database (repo : DatabaseNotesRepository.t).

(** ** The service ([services/notes_service.py])

    The service holds one repository, [self.repo], and forwards to it.
    [list_notes] is left out: it builds a [PaginatedNotes] from the
    notes, and what that construction accepts is decided inside
    pydantic. *)

Module NotesService.
Definition t := NotesRepository.

(** [NotesService(repository)]; a repository object is truthy. *)
Definition init (environ : Environ) (_settings_instance : option AppSettings.t)
    (repository : option NotesRepository) : option AppSettings.t * t :=
  match repository with
  | Some given => (_settings_instance, given)
  | None =>
      let (instance', settings) := get_app_settings environ _settings_instance in
      if truthy (AppSettings.db_url settings) then
        let (instance'', db) := DatabaseNotesRepository.init environ instance' in
        (instance'', Database db)
      else (instance', InMemory InMemoryNotesRepository.init)
  end.

Definition create_note (now : Z) (uuid4 : string) (payload : NoteCreate.t)
    (self : t) : t * (Exception + Note.t) :=
  match self with
  | InMemory repo =>
      let (repo', note) := InMemoryNotesRepository.create now uuid4 payload repo in
      (InMemory repo', inr note)
  | Database repo => (self, DatabaseNotesRepository.create payload repo)
  end.

Definition get_note (note_id : string) (self : t) : Exception + option Note.t :=
  match self with
  | InMemory repo => inr (InMemoryNotesRepository.get note_id repo)
  | Database repo => DatabaseNotesRepository.get note_id repo
  end.

Definition replace_note (now : Z) (note_id : string) (payload : NoteCreate.t)
    (self : t) : t * (Exception + option Note.t) :=
  match self with
  | InMemory repo =>
      let (repo', res) := InMemoryNotesRepository.replace now note_id payload repo in
      (InMemory repo', inr res)
  | Database repo => (self, DatabaseNotesRepository.replace note_id payload repo)
  end.

Definition update_note (now : Z) (note_id : string) (payload : NoteUpdate.t)
    (self : t) : t * (Exception + option Note.t) :=
  match self with
  | InMemory repo =>
      let (repo', res) := InMemoryNotesRepository.update now note_id payload repo in
      (InMemory repo', inr res)
  | Database repo => (self, DatabaseNotesRepository.update note_id payload repo)
  end.

Definition delete_note (note_id : string) (self : t) : t * (Exception + bool) :=
  match self with
  | InMemory repo =>
      let (repo', removed) := InMemoryNotesRepository.delete note_id repo in
      (InMemory repo', inr removed)
  | Database repo => (self, DatabaseNotesRepository.delete note_id repo)
  end.
End NotesService.

(** ** The handlers ([routers/notes.py])

    Each handler is the body of the route function, run on the module's
    [_service].  The handler of [GET /notes] only forwards to
    [list_notes] and is left out with it. *)

Module Router.
Definition not_found : Exception := HTTPException 404 "Note not found".

(** [NoteOut.model_validate(note.model_dump())]: the dump is checked
    against the fields of [NoteOut], which are those of [Note]. *)
Definition model_validate (dump : Note.t) : Exception + Note.t :=
  if title_fits (Note.title dump) then inr dump else inl ValidationError.

(** [if not note: raise HTTPException(404); return NoteOut...] *)
Definition respond (res : Exception + option Note.t) : Exception + Note.t :=
  match res with
  | inl raised => inl raised
  | inr None => inl not_found
  | inr (Some note) => model_validate note
  end.

Definition create_note (now : Z) (uuid4 : string) (payload : NoteCreate.t)
    (_service : NotesService.t) : NotesService.t * (Exception + Note.t) :=
  let (service', res) := NotesService.create_note now uuid4 payload _service in
  (service',
   match res with
   | inl raised => inl raised
   | inr note => model_validate note
   end).

Definition get_note (note_id : string) (_service : NotesService.t)
    : Exception + Note.t :=
  respond (NotesService.get_note note_id _service).

Definition replace_note (now : Z) (note_id : string) (payload : NoteCreate.t)
    (_service : NotesService.t) : NotesService.t * (Exception + Note.t) :=
  let (service', res) := NotesService.replace_note now note_id payload _service in
  (service', respond res).

Definition update_note (now : Z) (note_id : string) (payload : NoteUpdate.t)
    (_service : NotesService.t) : NotesService.t * (Exception + Note.t) :=
  let (service', res) := NotesService.update_note now note_id payload _service in
  (service', respond res).

Definition delete_note (note_id : string) (_service : NotesService.t)
    : NotesService.t * (Exception + unit) :=
  let (service', res) := NotesService.delete_note note_id _service in
  (service',
   match res with
   | inl raised => inl raised
   | inr false => inl not_found
   | inr true => inr tt
   end).
End Router.

(** ** A small store to run the methods on *)

Definition shopping : NoteCreate.t := NoteCreate.mk "Shopping" (Some "buy milk") [].
Definition work : NoteCreate.t := NoteCreate.mk "Work" (Some "finish report") ["job"].

Definition two_notes : Repo.t :=
  run ascii_lower
      [ ({| utcnow := 10; uuid4 := "id-1" |}, Create shopping);
        ({| utcnow := 11; uuid4 := "id-2" |}, Create work) ]
      Repo.init.

(** A store with the one note titled [ΟΔΟΣ]. *)
Definition street : NoteCreate.t := NoteCreate.mk "ΟΔΟΣ" None [].

Definition one_street : Repo.t :=
  fst (Repo.create 10 "id-1" street Repo.init).

(** * Properties *)

(** ** Strings and slices *)

Lemma starts_with_iff (a b : string) :
  starts_with a b = true <-> exists post, b = a ++ post.
Proof.
  revert b; induction a as [|x a IH]; intros b; simpl.
  - split; [intros _; now exists b | reflexivity].
  - destruct b as [|y b].
    + split; [discriminate | intros [post H]; discriminate H].
    + rewrite andb_true_iff, Ascii.eqb_eq, IH. split.
      * intros [-> [post ->]]. now exists post.
      * intros [post H]. injection H as -> ->. split; [reflexivity | now exists post].
Qed.

Lemma str_in_iff (a b : string) :
  str_in a b = true <-> exists pre post, b = pre ++ a ++ post.
Proof.
  induction b as [|y b IH]; simpl; rewrite orb_true_iff, starts_with_iff.
  - split.
    + intros [[post H] | H]; [| discriminate H]. now exists "", post.
    + intros [pre [post H]]. left. destruct pre as [|p pre]; [| discriminate H].
      now exists post.
  - rewrite IH. split.
    + intros [[post H] | [pre [post H]]].
      * now exists "", post.
      * exists (String y pre), post. simpl. now rewrite H.
    + intros [pre [post H]]. destruct pre as [|p pre]; simpl in H.
      * left. now exists post.
      * right. injection H as _ H. now exists pre, post.
Qed.

Lemma firstn_min_length {A : Type} (n : nat) (l : list A) :
  firstn (Nat.min n (List.length l)) l = firstn n l.
Proof.
  destruct (Nat.le_ge_cases n (List.length l)) as [H | H].
  - now rewrite Nat.min_l.
  - rewrite Nat.min_r by exact H. now rewrite firstn_all, firstn_all2.
Qed.

(** With bounds that are not negative, a slice is a drop followed by a
    take. *)
Lemma slice_window {A : Type} (l : list A) (offset limit : Z) :
  0 <= offset -> 0 <= limit ->
  slice l offset (offset + limit) =
  firstn (Z.to_nat limit) (skipn (Z.to_nat offset) l).
Proof.
  intros Ho Hl. unfold slice, slice_bound.
  destruct (Z.ltb_spec offset 0) as [? | _]; [lia |].
  destruct (Z.ltb_spec (offset + limit) 0) as [? | _]; [lia |].
  set (len := List.length l).
  destruct (Z.le_gt_cases offset (Z.of_nat len)) as [Hin | Hout].
  - rewrite (Z.min_l offset) by exact Hin.
    rewrite <- (firstn_min_length (Z.to_nat limit)).
    rewrite length_skipn. fold len. f_equal. lia.
  - rewrite (Z.min_r offset) by lia.
    rewrite (Z.min_r (offset + limit)) by lia.
    rewrite Z.sub_diag. simpl.
    rewrite (skipn_all2 l) by (fold len; lia).
    now rewrite firstn_nil.
Qed.

Lemma or_list_nil {A : Type} (xs : list A) : or_list xs [] = xs.
Proof. now destruct xs. Qed.

(** ** Dictionaries *)

Section DictFacts.
Context {V : Type}.
Implicit Types (d : Dict.t V) (k : string) (v : V).

Lemma get_set_same k v d : Dict.get k (Dict.set k v d) = Some v.
Proof.
  induction d as [|[k' v'] d IH]; simpl.
  - now rewrite String.eqb_refl.
  - destruct (String.eqb k k') eqn:E; simpl; rewrite ?String.eqb_refl, ?E; auto.
Qed.

Lemma get_set_other k k' v d :
  k' <> k -> Dict.get k' (Dict.set k v d) = Dict.get k' d.
Proof.
  intros Hne. apply String.eqb_neq in Hne.
  induction d as [|[k0 v0] d IH]; simpl.
  - now rewrite Hne.
  - destruct (String.eqb k k0) eqn:E; simpl.
    + apply String.eqb_eq in E. subst k0. now rewrite Hne.
    + now rewrite IH.
Qed.

Lemma get_None_not_key k d : Dict.get k d = None <-> ~ In k (Dict.keys d).
Proof.
  induction d as [|[k0 v0] d IH]; simpl.
  - tauto.
  - destruct (String.eqb_spec k k0) as [-> | Hne].
    + split; [discriminate | intros H; exfalso; apply H; now left].
    + rewrite IH. split.
      * intros H [Heq | Hin]; [now apply Hne | now apply H].
      * intros H Hin. apply H. now right.
Qed.

Lemma keys_set k v d :
  Dict.keys (Dict.set k v d) =
  if Dict.contains k d then Dict.keys d else (Dict.keys d ++ [k])%list.
Proof.
  unfold Dict.contains.
  induction d as [|[k0 v0] d IH]; simpl; [reflexivity |].
  destruct (String.eqb_spec k k0) as [-> | Hne]; simpl; [reflexivity |].
  rewrite IH. now destruct (Dict.get k d).
Qed.

Lemma wf_set k v d : Dict.wf d -> Dict.wf (Dict.set k v d).
Proof.
  unfold Dict.wf. intros Hwf. rewrite keys_set. unfold Dict.contains.
  destruct (Dict.get k d) eqn:E; [exact Hwf |].
  apply get_None_not_key in E.
  apply NoDup_rev in Hwf. rewrite <- (rev_involutive (_ ++ _)%list).
  apply NoDup_rev. rewrite rev_app_distr. simpl. constructor; [| exact Hwf].
  now rewrite <- in_rev.
Qed.

Lemma pop_result k d : fst (Dict.pop k d) = Dict.get k d.
Proof.
  induction d as [|[k0 v0] d IH]; simpl; [reflexivity |].
  destruct (String.eqb k k0); [reflexivity |].
  destruct (Dict.pop k d). exact IH.
Qed.

Lemma pop_absent k d : Dict.get k d = None -> snd (Dict.pop k d) = d.
Proof.
  induction d as [|[k0 v0] d IH]; simpl; [reflexivity |].
  destruct (String.eqb k k0); [discriminate |].
  intros H. specialize (IH H). destruct (Dict.pop k d). simpl in *. now subst.
Qed.

Lemma get_pop_other k k' d :
  k' <> k -> Dict.get k' (snd (Dict.pop k d)) = Dict.get k' d.
Proof.
  intros Hne. induction d as [|[k0 v0] d IH]; simpl; [reflexivity |].
  destruct (String.eqb_spec k k0) as [-> | Hk]; simpl.
  - destruct (String.eqb_spec k' k0); [contradiction | reflexivity].
  - destruct (Dict.pop k d). simpl in *. now rewrite IH.
Qed.

Lemma pop_incl k d e : In e (snd (Dict.pop k d)) -> In e d.
Proof.
  induction d as [|[k0 v0] d IH]; simpl; [auto |].
  destruct (String.eqb k k0); simpl; [auto |].
  destruct (Dict.pop k d). simpl in *. intros [H | H]; auto.
Qed.

Lemma get_pop_same k d :
  Dict.wf d -> Dict.get k (snd (Dict.pop k d)) = None.
Proof.
  unfold Dict.wf. induction d as [|[k0 v0] d IH]; simpl; [reflexivity |].
  intros Hwf. inversion Hwf as [| ? ? Hnotin Hwf']; subst.
  destruct (String.eqb_spec k k0) as [-> | Hk]; simpl.
  - now apply get_None_not_key.
  - specialize (IH Hwf'). destruct (Dict.pop k d). simpl in *.
    destruct (String.eqb_spec k k0); [contradiction | exact IH].
Qed.

Lemma wf_pop k d : Dict.wf d -> Dict.wf (snd (Dict.pop k d)).
Proof.
  unfold Dict.wf. induction d as [|[k0 v0] d IH]; simpl; [auto |].
  intros Hwf. inversion Hwf as [| ? ? Hnotin Hwf']; subst.
  destruct (String.eqb k k0); simpl; [exact Hwf' |].
  specialize (IH Hwf').
  pose proof (fun e => pop_incl k d e) as Hincl.
  destruct (Dict.pop k d) as [r d']. simpl in *. constructor; [| exact IH].
  intros Hin. apply Hnotin. apply in_map_iff in Hin as [e [He Hin]].
  apply in_map_iff. exists e. split; [exact He | now apply Hincl].
Qed.

Lemma set_incl k v d e : In e (Dict.set k v d) -> e = (k, v) \/ In e d.
Proof.
  induction d as [|[k0 v0] d IH]; simpl.
  - intros [H | []]. now left.
  - destruct (String.eqb k k0); simpl.
    + intros [H | H]; auto.
    + intros [H | H]; auto. destruct (IH H); auto.
Qed.

Lemma others_set k v d : Dict.others k (Dict.set k v d) = Dict.others k d.
Proof.
  unfold Dict.others. induction d as [|[k0 v0] d IH]; simpl.
  - now rewrite String.eqb_refl.
  - destruct (String.eqb k k0) eqn:E; simpl.
    + now rewrite String.eqb_refl.
    + now rewrite E, IH.
Qed.

Lemma others_pop k d : Dict.others k (snd (Dict.pop k d)) = Dict.others k d.
Proof.
  unfold Dict.others.
  induction d as [|[k0 v0] d IH]; simpl; [reflexivity |].
  destruct (String.eqb k k0) eqn:E; simpl; [reflexivity |].
  destruct (Dict.pop k d). simpl in *. now rewrite E, IH.
Qed.

Lemma get_others k k' d :
  k' <> k -> Dict.get k' (Dict.others k d) = Dict.get k' d.
Proof.
  intros Hne. unfold Dict.others.
  induction d as [|[k0 v0] d IH]; simpl; [reflexivity |].
  destruct (String.eqb_spec k k0) as [-> | Hk]; simpl.
  - destruct (String.eqb_spec k' k0); [contradiction | exact IH].
  - now rewrite IH.
Qed.
End DictFacts.

Lemma get_In {V : Type} (k : string) (v : V) (d : Dict.t V) :
  Dict.get k d = Some v -> In (k, v) d.
Proof.
  induction d as [|[k0 v0] d IH]; simpl; [discriminate |].
  destruct (String.eqb_spec k k0) as [-> | Hne].
  - intros [= ->]. now left.
  - intros H. right. now apply IH.
Qed.

(** ** The methods, case by case *)

Lemma replace_absent now note_id data (self : Repo.t) :
  Repo.get note_id self = None ->
  Repo.replace now note_id data self = (self, None).
Proof. unfold Repo.get, Repo.replace, Dict.contains. now intros ->. Qed.

Lemma replace_present now note_id data (self : Repo.t) old :
  Repo.get note_id self = Some old ->
  Repo.replace now note_id data self =
  let note := Note.mk note_id (NoteCreate.title data) (NoteCreate.content data)
                      (NoteCreate.tags data) (Note.created_at old) now in
  (Dict.set note_id note self, Some note).
Proof.
  unfold Repo.get, Repo.replace, Dict.contains. intros ->. simpl.
  now rewrite or_list_nil.
Qed.

Lemma update_absent now note_id data (self : Repo.t) :
  Repo.get note_id self = None ->
  Repo.update now note_id data self = (self, None).
Proof. unfold Repo.get, Repo.update, Dict.contains. now intros ->. Qed.

Lemma update_present now note_id data (self : Repo.t) old :
  Repo.get note_id self = Some old ->
  exists new,
    Repo.update now note_id data self = (Dict.set note_id new self, Some new) /\
    Note.id new = Note.id old /\
    Note.title new =
      match NoteUpdate.title data with Some v => v | None => Note.title old end /\
    Note.content new =
      match NoteUpdate.content data with
      | Some v => Some v
      | None => Note.content old
      end /\
    Note.tags new =
      match NoteUpdate.tags data with Some v => v | None => Note.tags old end /\
    Note.created_at new = Note.created_at old /\
    Note.updated_at new = now.
Proof.
  unfold Repo.get, Repo.update, Dict.contains. intros ->. simpl.
  eexists. split; [reflexivity |]. simpl. repeat split; reflexivity.
Qed.

Lemma delete_spec note_id (self : Repo.t) :
  Repo.delete note_id self =
  (snd (Dict.pop note_id self),
   match Dict.get note_id self with Some _ => true | None => false end).
Proof.
  unfold Repo.delete. rewrite <- pop_result.
  now destruct (Dict.pop note_id self).
Qed.

Lemma delete_absent note_id (self : Repo.t) :
  Repo.get note_id self = None -> Repo.delete note_id self = (self, false).
Proof.
  unfold Repo.get. intros H. rewrite delete_spec, H. now rewrite pop_absent.
Qed.

(** Every call leaves a dictionary that holds each key once. *)
Lemma call_wf lower r c (self : Repo.t) :
  Dict.wf self -> Dict.wf (fst (call lower r c self)).
Proof.
  intros Hwf.
  destruct c as [data | id | q limit offset | id data | id data | id]; simpl.
  - now apply wf_set.
  - exact Hwf.
  - now destruct (Repo.list lower q limit offset self).
  - destruct (Repo.get id self) as [old|] eqn:E.
    + rewrite (replace_present _ _ _ _ _ E). simpl. now apply wf_set.
    + now rewrite (replace_absent _ _ _ _ E).
  - destruct (Repo.get id self) as [old|] eqn:E.
    + destruct (update_present (utcnow r) id data self old E) as [new [-> _]].
      simpl. now apply wf_set.
    + now rewrite (update_absent _ _ _ _ E).
  - rewrite delete_spec. simpl. now apply wf_pop.
Qed.

Lemma run_wf lower calls (self : Repo.t) :
  Dict.wf self -> Dict.wf (run lower calls self).
Proof.
  revert self. induction calls as [|[r c] calls IH]; intros self Hwf; simpl.
  - exact Hwf.
  - apply IH. now apply call_wf.
Qed.

Lemma init_wf : Dict.wf Repo.init.
Proof. constructor. Qed.

(** ** Listing *)

Lemma filter_Selected {A : Type} (f : A -> bool) (P : A -> Prop) (l : list A) :
  (forall x, f x = true <-> P x) -> Selected P l (filter f l).
Proof.
  intros Hf. induction l as [|x l IH]; simpl; [constructor |].
  destruct (f x) eqn:E.
  - constructor; [now apply Hf | exact IH].
  - constructor; [| exact IH]. intros HP. apply Hf in HP. congruence.
Qed.

(** A list has one restriction to a given predicate. *)
Lemma Selected_unique {A : Type} (P : A -> Prop) (l m1 m2 : list A) :
  Selected P l m1 -> Selected P l m2 -> m1 = m2.
Proof.
  intros H1. revert m2.
  induction H1; intros m2 H2; inversion H2; subst;
    try reflexivity; try contradiction; auto.
  f_equal. auto.
Qed.

Section ListingFacts.
Variable lower : string -> string.
Hypothesis lower_empty : lower "" = "".

Lemma lowered_contains_empty (q : string) :
  lowered_contains lower q "" -> forall s, lowered_contains lower q s.
Proof.
  intros [pre [post H]] s. rewrite lower_empty in H.
  destruct pre; [| discriminate H]. simpl in H.
  exists "", (lower s). simpl. destruct (lower q); [reflexivity | discriminate H].
Qed.

Lemma keeps_iff (q : string) (n : Note.t) :
  Repo.keeps lower (lower q) n = true <-> lowered_match lower q n.
Proof.
  unfold Repo.keeps, lowered_match, lowered_contains.
  rewrite orb_true_iff, !str_in_iff. split.
  - intros [H | H]; [now left |]. right.
    destruct (Note.content n) as [c|]; [| discriminate H].
    apply andb_true_iff in H as [_ H]. apply str_in_iff in H.
    now exists c.
  - intros [H | [c [Hc H]]]; [now left |]. rewrite Hc.
    destruct c as [|x c].
    + left. now apply (lowered_contains_empty q).
    + right. simpl. now apply str_in_iff.
Qed.
End ListingFacts.

(** ** The methods on a small store *)

Example list_milk :
  Repo.list ascii_lower (Some "MILK") 20 0 two_notes =
  (1, [Note.mk "id-1" "Shopping" (Some "buy milk") [] 10 10]).
Proof. reflexivity. Qed.

Example list_pages :
  Repo.list ascii_lower None 1 1 two_notes =
  (2, [Note.mk "id-2" "Work" (Some "finish report") ["job"] 11 11]).
Proof. reflexivity. Qed.

Example get_after_delete :
  Repo.get "id-2" (fst (Repo.delete "id-2" two_notes)) = None.
Proof. reflexivity. Qed.

(** ** The claims *)

(** Where [lower] works letter by letter, a text contains [q] with case
    disregarded exactly when its lowered form contains the lowered
    [q]. *)
Section Letterwise.
Variable lower : string -> string.
Variable lower_letter : ascii -> ascii.
Hypothesis lower_empty : lower "" = "".
Hypothesis lower_step :
  forall c s, lower (String c s) = String (lower_letter c) (lower s).

Lemma lower_app (a b : string) : lower (a ++ b) = lower a ++ lower b.
Proof.
  induction a as [|c a IH]; simpl.
  - now rewrite lower_empty.
  - now rewrite !lower_step, IH.
Qed.

Lemma lower_splits (s a' b' : string) :
  lower s = a' ++ b' ->
  exists a b, s = a ++ b /\ lower a = a' /\ lower b = b'.
Proof.
  revert s. induction a' as [|c' a' IH]; intros s H.
  - exists "", s. now rewrite lower_empty.
  - destruct s as [|c s].
    + rewrite lower_empty in H. discriminate H.
    + rewrite lower_step in H. simpl in H. injection H as Hc Hs.
      destruct (IH s Hs) as [a [b [-> [Ha Hb]]]].
      exists (String c a), b. rewrite lower_step, Ha, Hc. now repeat split.
Qed.

Lemma caseless_iff_lowered (q s : string) :
  caseless_contains lower q s <-> lowered_contains lower q s.
Proof.
  unfold caseless_contains, lowered_contains. split.
  - intros [pre [mid [post [-> Hmid]]]].
    exists (lower pre), (lower post). now rewrite !lower_app, Hmid.
  - intros [pre' [post' H]].
    destruct (lower_splits _ _ _ H) as [pre [rest [-> [_ Hrest]]]].
    destruct (lower_splits _ _ _ Hrest) as [mid [post [-> [Hmid _]]]].
    now exists pre, mid, post.
Qed.
End Letterwise.

(** On ASCII text, then, [list] counts the notes that contain the query
    with case disregarded. *)
Lemma ascii_caseless_iff_lowered (q : string) (n : Note.t) :
  caseless_match ascii_lower q n <-> lowered_match ascii_lower q n.
Proof.
  assert (H : forall s, caseless_contains ascii_lower q s <->
                        lowered_contains ascii_lower q s).
  { intros s. now apply (caseless_iff_lowered ascii_lower ascii_lower_char). }
  unfold caseless_match, lowered_match. rewrite H. split.
  - intros [Ht | [c [Hc Hin]]]; [now left |]. right. exists c. now rewrite <- H.
  - intros [Ht | [c [Hc Hin]]]; [now left |]. right. exists c. now rewrite H.
Qed.

(** C1, as the code has it.  For a non-empty query [q], [list] returns
    as total the number of stored notes whose lowered title or lowered
    content contains the lowered [q] ([q.lower()] occurs in
    [title.lower()] or in [content.lower()]), counted before
    pagination, and as items the window [offset, offset + limit) of
    those notes in insertion order; an offset at or past the end gives
    no items.  [limit] and [offset] are not negative, and [str.lower]
    maps the empty string to itself. *)
Theorem list_counts_matches_then_pages
    (lower : string -> string) (self : Repo.t) (q : string) (limit offset : Z) :
  lower "" = "" ->
  q <> "" ->
  0 <= offset ->
  0 <= limit ->
  exists matched,
    Selected (lowered_match lower q) (Dict.values self) matched /\
    Repo.list lower (Some q) limit offset self =
      (Z.of_nat (List.length matched),
       firstn (Z.to_nat limit) (skipn (Z.to_nat offset) matched)) /\
    (Z.of_nat (List.length matched) <= offset ->
     snd (Repo.list lower (Some q) limit offset self) = []).
Proof.
  intros Hlower Hq Hoffset Hlimit.
  exists (filter (Repo.keeps lower (lower q)) (Dict.values self)).
  assert (Hlist :
    Repo.list lower (Some q) limit offset self =
    (Z.of_nat (List.length (filter (Repo.keeps lower (lower q)) (Dict.values self))),
     firstn (Z.to_nat limit)
       (skipn (Z.to_nat offset)
          (filter (Repo.keeps lower (lower q)) (Dict.values self))))).
  { unfold Repo.list. destruct q as [|c q]; [congruence |]. simpl truthy. cbv iota.
    cbv zeta. now rewrite slice_window. }
  split; [| split].
  - apply filter_Selected. intros n. now apply keeps_iff.
  - exact Hlist.
  - intros Hpast. rewrite Hlist. simpl.
    rewrite skipn_all2 by lia. apply firstn_nil.
Qed.

Lemma list_counts_matches_then_pages_witness :
  exists matched,
    Selected (lowered_match ascii_lower "MILK") (Dict.values two_notes) matched /\
    Repo.list ascii_lower (Some "MILK") 1 0 two_notes =
      (Z.of_nat (List.length matched),
       firstn (Z.to_nat 1) (skipn (Z.to_nat 0) matched)) /\
    (Z.of_nat (List.length matched) <= 0 ->
     snd (Repo.list ascii_lower (Some "MILK") 1 0 two_notes) = []).
Proof.
  apply (list_counts_matches_then_pages ascii_lower two_notes "MILK" 1 0);
    [reflexivity | discriminate | lia | lia].
Defined.

(** C1, as stated, fails.  The title [ΟΔΟΣ] contains the query [Σ] as
    it is written, so with case disregarded as well, yet [list] counts
    no note: [str.lower] turns the sigma that ends the title into [ς]
    and the sigma that is the whole query into [σ]. *)
Lemma list_misses_final_sigma :
  Dict.values one_street = [Note.mk "id-1" "ΟΔΟΣ" None [] 10 10] /\
  str_in "Σ" "ΟΔΟΣ" = true /\
  caseless_match greek_lower "Σ" (Note.mk "id-1" "ΟΔΟΣ" None [] 10 10) /\
  greek_lower "Σ" = "σ" /\
  greek_lower "ΟΔΟΣ" = "οδος" /\
  Repo.list greek_lower (Some "Σ") 20 0 one_street = (0, []).
Proof.
  split; [reflexivity |]. split; [reflexivity |].
  split.
  - left. exists "ΟΔΟ", "Σ", "". split; reflexivity.
  - repeat split; reflexivity.
Qed.

(** C2. For an id in the store, [update] applies the fields that [data]
    carries and keeps the prior value of every field left unset, sets
    [updated_at] to the current time, stores the result and returns it;
    with only [tags] given, title and content stay as they were.  For an
    id not in the store it returns [None] and the store is unchanged. *)
Theorem update_applies_given_fields
    (now : Z) (note_id : string) (data : NoteUpdate.t) (self : Repo.t) :
  (forall old, Repo.get note_id self = Some old ->
     exists new,
       Repo.update now note_id data self = (Dict.set note_id new self, Some new) /\
       Repo.get note_id (fst (Repo.update now note_id data self)) = Some new /\
       Note.id new = Note.id old /\
       Note.created_at new = Note.created_at old /\
       Note.updated_at new = now /\
       (forall v, NoteUpdate.title data = Some v -> Note.title new = v) /\
       (forall v, NoteUpdate.content data = Some v -> Note.content new = Some v) /\
       (forall v, NoteUpdate.tags data = Some v -> Note.tags new = v) /\
       (NoteUpdate.title data = None -> Note.title new = Note.title old) /\
       (NoteUpdate.content data = None -> Note.content new = Note.content old) /\
       (NoteUpdate.tags data = None -> Note.tags new = Note.tags old)) /\
  (Repo.get note_id self = None ->
     Repo.update now note_id data self = (self, None)).
Proof.
  split; [| apply update_absent].
  intros old Hold.
  destruct (update_present now note_id data self old Hold)
    as [new [Hupd [Hid [Htitle [Hcontent [Htags [Hcreated Hupdated]]]]]]].
  exists new. rewrite Hupd. simpl. unfold Repo.get at 1. rewrite get_set_same.
  repeat split; auto.
  - intros v Hv. now rewrite Htitle, Hv.
  - intros v Hv. now rewrite Hcontent, Hv.
  - intros v Hv. now rewrite Htags, Hv.
  - intros Hv. now rewrite Htitle, Hv.
  - intros Hv. now rewrite Hcontent, Hv.
  - intros Hv. now rewrite Htags, Hv.
Qed.

Lemma update_applies_given_fields_witness :
  exists new,
    Repo.update 12 "id-1" (NoteUpdate.mk None None (Some ["food"]) [FTags]) two_notes =
      (Dict.set "id-1" new two_notes, Some new) /\
    Note.title new = "Shopping" /\
    Note.content new = Some "buy milk" /\
    Note.tags new = ["food"] /\
    Note.updated_at new = 12.
Proof.
  destruct (update_applies_given_fields 12 "id-1"
              (NoteUpdate.mk None None (Some ["food"]) [FTags]) two_notes)
    as [Hpresent _].
  destruct (Hpresent (Note.mk "id-1" "Shopping" (Some "buy milk") [] 10 10) eq_refl)
    as [new [Hupd [_ [_ [_ [Hnow [_ [_ [Htags [Htitle [Hcontent _]]]]]]]]]]].
  exists new. repeat split.
  - exact Hupd.
  - now rewrite Htitle.
  - now rewrite Hcontent.
  - now apply Htags.
  - exact Hnow.
Defined.

(** C3. For an id in the store, [replace] overwrites title, content and
    tags with those of [data], keeps the note's [created_at], sets
    [updated_at] to the current time, stores the note and returns it.
    For an id not in the store it returns [None] and the store is
    unchanged. *)
Theorem replace_overwrites_wholesale
    (now : Z) (note_id : string) (data : NoteCreate.t) (self : Repo.t) :
  (forall old, Repo.get note_id self = Some old ->
     exists new,
       Repo.replace now note_id data self = (Dict.set note_id new self, Some new) /\
       Repo.get note_id (fst (Repo.replace now note_id data self)) = Some new /\
       Note.id new = note_id /\
       Note.title new = NoteCreate.title data /\
       Note.content new = NoteCreate.content data /\
       Note.tags new = NoteCreate.tags data /\
       Note.created_at new = Note.created_at old /\
       Note.updated_at new = now) /\
  (Repo.get note_id self = None ->
     Repo.replace now note_id data self = (self, None)).
Proof.
  split; [| apply replace_absent].
  intros old Hold. rewrite (replace_present now note_id data self old Hold).
  cbv zeta. eexists. split; [reflexivity |]. simpl. unfold Repo.get.
  rewrite get_set_same. repeat split; reflexivity.
Qed.

Lemma replace_overwrites_wholesale_witness :
  (exists new,
     Repo.replace 12 "id-1" work two_notes =
       (Dict.set "id-1" new two_notes, Some new) /\
     Note.title new = "Work" /\
     Note.content new = Some "finish report" /\
     Note.tags new = ["job"] /\
     Note.created_at new = 10 /\
     Note.updated_at new = 12) /\
  Repo.replace 12 "id-9" work two_notes = (two_notes, None).
Proof.
  destruct (replace_overwrites_wholesale 12 "id-1" work two_notes) as [Hpresent _].
  destruct (replace_overwrites_wholesale 12 "id-9" work two_notes) as [_ Habsent].
  split; [| exact (Habsent eq_refl)].
  destruct (Hpresent (Note.mk "id-1" "Shopping" (Some "buy milk") [] 10 10) eq_refl)
    as [new [Hrep [_ [_ [Htitle [Hcontent [Htags [Hcreated Hupdated]]]]]]]].
  exists new. repeat split; assumption.
Defined.

(** Calls that do not create a note under [k] leave [k] absent. *)
Lemma call_keeps_absent lower r c (self : Repo.t) k :
  Repo.get k self = None ->
  introduces (r, c) <> Some k ->
  Repo.get k (fst (call lower r c self)) = None.
Proof.
  unfold Repo.get, introduces. intros Habs Hintro.
  destruct c as [data | id | q limit offset | id data | id data | id]; simpl.
  - rewrite get_set_other; [exact Habs |]. simpl in Hintro. congruence.
  - exact Habs.
  - exact Habs.
  - destruct (Repo.get id self) as [old|] eqn:E.
    + rewrite (replace_present _ _ _ _ _ E). simpl.
      rewrite get_set_other; [exact Habs |]. unfold Repo.get in E. congruence.
    + now rewrite (replace_absent _ _ _ _ E).
  - destruct (Repo.get id self) as [old|] eqn:E.
    + destruct (update_present (utcnow r) id data self old E) as [new [-> _]]. simpl.
      rewrite get_set_other; [exact Habs |]. unfold Repo.get in E. congruence.
    + now rewrite (update_absent _ _ _ _ E).
  - rewrite delete_spec. simpl.
    destruct (String.eqb_spec k id) as [-> | Hne].
    + now rewrite pop_absent.
    + now rewrite get_pop_other.
Qed.

Lemma run_keeps_absent lower calls (self : Repo.t) k :
  Repo.get k self = None ->
  Forall (fun e => introduces e <> Some k) calls ->
  Repo.get k (run lower calls self) = None.
Proof.
  revert self. induction calls as [|[r c] calls IH]; intros self Habs Hall; simpl.
  - exact Habs.
  - inversion Hall; subst. apply IH; [| assumption].
    now apply call_keeps_absent.
Qed.

(** C4. [delete] returns a boolean, true exactly when a note with that
    id was in the store, and the note is then gone; for an absent id it
    returns false and changes nothing.  After a delete of an id, [get],
    [update], [replace] and [delete] on it report absence, through any
    later calls, as long as no note is created under that id again. *)
Theorem delete_then_absent
    (lower : string -> string) (note_id : string) (self : Repo.t) :
  Dict.wf self ->
  (snd (Repo.delete note_id self) = true <->
     exists n, Repo.get note_id self = Some n) /\
  (snd (Repo.delete note_id self) = false ->
     fst (Repo.delete note_id self) = self) /\
  forall calls,
    Forall (fun e => introduces e <> Some note_id) calls ->
    let later := run lower calls (fst (Repo.delete note_id self)) in
    Repo.get note_id later = None /\
    (forall now data, Repo.update now note_id data later = (later, None)) /\
    (forall now data, Repo.replace now note_id data later = (later, None)) /\
    Repo.delete note_id later = (later, false).
Proof.
  intros Hwf. rewrite delete_spec. simpl. split; [| split].
  - unfold Repo.get. destruct (Dict.get note_id self) as [n|].
    + split; [intros _; now exists n | reflexivity].
    + split; [discriminate | intros [n H]; discriminate H].
  - destruct (Dict.get note_id self) as [n|] eqn:E; [discriminate |].
    intros _. now apply pop_absent.
  - intros calls Hcalls.
    assert (Hgone :
      Repo.get note_id (run lower calls (snd (Dict.pop note_id self))) = None).
    { apply run_keeps_absent; [| exact Hcalls]. now apply get_pop_same. }
    split; [exact Hgone |]. split; [| split].
    + intros now data. now apply update_absent.
    + intros now data. now apply replace_absent.
    + now apply delete_absent.
Qed.

Lemma wf_two_notes : Dict.wf two_notes.
Proof.
  unfold Dict.wf. simpl. constructor.
  - intros [H | []]. discriminate H.
  - constructor; [intros [] | constructor].
Defined.

Lemma delete_then_absent_witness :
  snd (Repo.delete "id-2" two_notes) = true /\
  Repo.get "id-2"
    (run ascii_lower
       [ ({| utcnow := 12; uuid4 := "id-3" |}, Create shopping);
         ({| utcnow := 13; uuid4 := "id-4" |}, Update "id-2" (NoteUpdate.mk (Some "x") None None [FTitle])) ]
       (fst (Repo.delete "id-2" two_notes))) = None.
Proof.
  destruct (delete_then_absent ascii_lower "id-2" two_notes wf_two_notes)
    as [Hiff [_ Hlater]].
  split.
  - apply Hiff. now exists (Note.mk "id-2" "Work" (Some "finish report") ["job"] 11 11).
  - apply Hlater. repeat constructor; discriminate.
Defined.

(** C5. [create] followed by [get] on the id of the note it returned
    gives back that very record. *)
Theorem create_then_get
    (now : Z) (uuid : string) (data : NoteCreate.t) (self : Repo.t) :
  Repo.get (Note.id (snd (Repo.create now uuid data self)))
           (fst (Repo.create now uuid data self))
  = Some (snd (Repo.create now uuid data self)).
Proof. unfold Repo.create, Repo.get. simpl. apply get_set_same. Qed.

(** C6. A mutating call touches the one entry it targets: the entries
    under every other id, and their order, are as before, and so is
    what [get] finds under every other id; [get] and [list] leave the
    whole store as it was. *)
Theorem call_frames_other_entries
    (lower : string -> string) (r : Reading) (c : Call) (self : Repo.t) :
  (forall k, target r c = Some k ->
     Dict.others k (fst (call lower r c self)) = Dict.others k self /\
     forall k', k' <> k ->
       Repo.get k' (fst (call lower r c self)) = Repo.get k' self) /\
  (target r c = None -> fst (call lower r c self) = self).
Proof.
  assert (Hothers : forall k, target r c = Some k ->
            Dict.others k (fst (call lower r c self)) = Dict.others k self).
  { intros k Hk.
    destruct c as [data | id | q limit offset | id data | id data | id];
      simpl in Hk; try discriminate Hk; injection Hk as <-; simpl.
    - apply others_set.
    - destruct (Repo.get id self) as [old|] eqn:E.
      + rewrite (replace_present _ _ _ _ _ E). simpl. apply others_set.
      + now rewrite (replace_absent _ _ _ _ E).
    - destruct (Repo.get id self) as [old|] eqn:E.
      + destruct (update_present (utcnow r) id data self old E) as [new [-> _]].
        simpl. apply others_set.
      + now rewrite (update_absent _ _ _ _ E).
    - rewrite delete_spec. simpl. apply others_pop. }
  split.
  - intros k Hk. split; [now apply Hothers |].
    intros k' Hne. unfold Repo.get.
    rewrite <- (get_others k k' (fst (call lower r c self)) Hne).
    rewrite (Hothers k Hk). now apply get_others.
  - destruct c as [data | id | q limit offset | id data | id data | id];
      simpl; try discriminate; intros _.
    + reflexivity.
    + now destruct (Repo.list lower q limit offset self).
Qed.

Lemma call_frames_other_entries_witness :
  Repo.get "id-1"
    (fst (call ascii_lower {| utcnow := 12; uuid4 := "id-3" |} (Delete "id-2") two_notes))
  = Some (Note.mk "id-1" "Shopping" (Some "buy milk") [] 10 10).
Proof.
  destruct (call_frames_other_entries ascii_lower
              {| utcnow := 12; uuid4 := "id-3" |} (Delete "id-2") two_notes)
    as [Hframe _].
  destruct (Hframe "id-2" eq_refl) as [_ Hget].
  rewrite (Hget "id-1"); [reflexivity | discriminate].
Defined.

(** One call under a clock that has not gone back keeps every note
    stamped in order. *)
Lemma call_stamped lower t r c (self : Repo.t) :
  stamped_by t self ->
  t <= utcnow r ->
  stamped_by (utcnow r) (fst (call lower r c self)).
Proof.
  intros Hst Hclock.
  assert (Hold : stamped_by (utcnow r) self).
  { intros k n Hin. destruct (Hst k n Hin). lia. }
  destruct c as [data | id | q limit offset | id data | id data | id]; simpl.
  - intros k n Hin. apply set_incl in Hin as [Heq | Hin].
    + injection Heq as _ ->. simpl. lia.
    + now apply (Hold k).
  - exact Hold.
  - now destruct (Repo.list lower q limit offset self).
  - destruct (Repo.get id self) as [old|] eqn:E.
    + rewrite (replace_present _ _ _ _ _ E). simpl.
      intros k n Hin. apply set_incl in Hin as [Heq | Hin].
      * injection Heq as _ ->. simpl. destruct (Hst id old (get_In _ _ _ E)). lia.
      * now apply (Hold k).
    + now rewrite (replace_absent _ _ _ _ E).
  - destruct (Repo.get id self) as [old|] eqn:E.
    + destruct (update_present (utcnow r) id data self old E)
        as [new [-> [_ [_ [_ [_ [Hcreated Hupdated]]]]]]]. simpl.
      intros k n Hin. apply set_incl in Hin as [Heq | Hin].
      * injection Heq as _ ->. rewrite Hcreated, Hupdated.
        destruct (Hst id old (get_In _ _ _ E)). lia.
      * now apply (Hold k).
    + now rewrite (update_absent _ _ _ _ E).
  - rewrite delete_spec. simpl. intros k n Hin. apply pop_incl in Hin.
    now apply (Hold k).
Qed.

(** C7. Under a clock that never goes back, every note of the store has
    [created_at <= updated_at], and every operation of the store
    (create, get, list, replace, update, delete) keeps it so: it holds
    after any sequence of calls, from a store whose notes were stamped in
    order by earlier readings, the empty store among them. *)
Theorem created_at_le_updated_at
    (lower : string -> string) (t0 : Z) (calls : list (Reading * Call))
    (self : Repo.t) :
  stamped_by t0 self ->
  non_decreasing t0 calls ->
  ordered (run lower calls self).
Proof.
  revert t0 self. induction calls as [|[r c] calls IH]; intros t0 self Hst Hclock.
  - simpl. intros k n Hin. now destruct (Hst k n Hin).
  - simpl in *. destruct Hclock as [Hle Hrest].
    apply (IH (utcnow r)); [| exact Hrest].
    now apply call_stamped with (t := t0).
Qed.

Lemma created_at_le_updated_at_witness :
  ordered
    (run ascii_lower
       [ ({| utcnow := 10; uuid4 := "id-1" |}, Create shopping);
         ({| utcnow := 10; uuid4 := "id-2" |},
          Update "id-1" (NoteUpdate.mk None (Some "buy oat milk") None [FContent]));
         ({| utcnow := 15; uuid4 := "id-3" |}, Replace "id-1" work) ]
       Repo.init).
Proof.
  apply (created_at_le_updated_at ascii_lower 0).
  - intros k n [].
  - simpl. lia.
Defined.

(** C8. The note [create] returns has [created_at] equal to
    [updated_at], and that is the note it stored. *)
Theorem create_stamps_once
    (now : Z) (uuid : string) (data : NoteCreate.t) (self : Repo.t) :
  Note.created_at (snd (Repo.create now uuid data self)) =
  Note.updated_at (snd (Repo.create now uuid data self)) /\
  Note.created_at (snd (Repo.create now uuid data self)) = now.
Proof. split; reflexivity. Qed.




(** C10. [update] looks at whether a field of the payload is [None], not
    at whether the payload mentioned it: the result does not depend on
    [model_fields_set], a field that is [None] leaves the note's prior
    value in place, and a content that was there is never cleared. *)
Theorem update_skips_null_fields
    (now : Z) (note_id : string) (data : NoteUpdate.t) (self : Repo.t)
    (old : Note.t) :
  Repo.get note_id self = Some old ->
  (forall mentioned,
     Repo.update now note_id
       (NoteUpdate.mk (NoteUpdate.title data) (NoteUpdate.content data)
                      (NoteUpdate.tags data) mentioned) self
     = Repo.update now note_id data self) /\
  exists new,
    snd (Repo.update now note_id data self) = Some new /\
    Repo.get note_id (fst (Repo.update now note_id data self)) = Some new /\
    (NoteUpdate.title data = None -> Note.title new = Note.title old) /\
    (NoteUpdate.content data = None -> Note.content new = Note.content old) /\
    (NoteUpdate.tags data = None -> Note.tags new = Note.tags old) /\
    (Note.content old <> None -> Note.content new <> None).
Proof.
  intros Hold. split; [reflexivity |].
  destruct (update_present now note_id data self old Hold)
    as [new [-> [_ [Htitle [Hcontent [Htags _]]]]]].
  exists new. simpl. unfold Repo.get at 1. rewrite get_set_same.
  repeat split.
  - intros Hv. now rewrite Htitle, Hv.
  - intros Hv. now rewrite Hcontent, Hv.
  - intros Hv. now rewrite Htags, Hv.
  - intros Hsome. rewrite Hcontent.
    destruct (NoteUpdate.content data); [discriminate | exact Hsome].
Qed.

Lemma update_skips_null_fields_witness :
  exists new,
    snd (Repo.update 12 "id-1" (NoteUpdate.mk None None None [FContent]) two_notes)
      = Some new /\
    Note.content new = Some "buy milk".
Proof.
  destruct (update_skips_null_fields 12 "id-1"
              (NoteUpdate.mk None None None [FContent]) two_notes
              (Note.mk "id-1" "Shopping" (Some "buy milk") [] 10 10) eq_refl)
    as [_ [new [Hres [_ [_ [Hcontent _]]]]]].
  exists new. split; [exact Hres |]. now rewrite (Hcontent eq_refl).
Defined.

(** * Further properties of the code *)

(** ** Listing and paging *)

Lemma list_unfold lower q limit offset (self : Repo.t) :
  Repo.list lower q limit offset self =
  (Z.of_nat (List.length (listed lower q self)),
   slice (listed lower q self) offset (offset + limit)).
Proof.
  unfold Repo.list, listed. destruct q as [q'|]; [| reflexivity].
  now destruct (truthy q').
Qed.

Lemma firstn_then_firstn {A : Type} (a b : nat) (l : list A) :
  (firstn a l ++ firstn b (skipn a l))%list = firstn (a + b) l.
Proof.
  revert l. induction a as [|a IH]; intros l; simpl; [reflexivity |].
  destruct l as [|x l]; simpl.
  - now rewrite firstn_nil.
  - now rewrite IH.
Qed.

Lemma slice_is_block {A : Type} (l : list A) (start stop : Z) :
  exists pre post, l = (pre ++ slice l start stop ++ post)%list.
Proof.
  unfold slice.
  set (lo := Z.to_nat (slice_bound _ start)).
  set (n := Z.to_nat (_ - _)).
  exists (firstn lo l), (skipn n (skipn lo l)).
  now rewrite (firstn_skipn n), (firstn_skipn lo).
Qed.

Lemma slice_length_le {A : Type} (l : list A) (offset limit : Z) :
  0 <= limit ->
  Z.of_nat (List.length (slice l offset (offset + limit))) <= limit.
Proof.
  intros Hlimit. unfold slice.
  set (len := Z.of_nat (List.length l)).
  set (lo := slice_bound len offset).
  set (hi := slice_bound len (offset + limit)).
  assert (Hdiff : hi - lo <= limit).
  { assert (0 <= len) by (unfold len; lia).
    unfold lo, hi, slice_bound.
    destruct (Z.ltb_spec offset 0), (Z.ltb_spec (offset + limit) 0); lia. }
  pose proof (firstn_le_length (Z.to_nat (hi - lo)) (skipn (Z.to_nat lo) l)).
  lia.
Qed.

(** X1. Without a query, and with the empty string as query, [list]
    counts every stored note and returns the window
    [offset, offset + limit) of all of them in insertion order. *)
Theorem list_without_query
    (lower : string -> string) (self : Repo.t) (limit offset : Z) :
  0 <= offset ->
  0 <= limit ->
  Repo.list lower None limit offset self =
    (Z.of_nat (List.length self),
     firstn (Z.to_nat limit) (skipn (Z.to_nat offset) (Dict.values self))) /\
  Repo.list lower (Some "") limit offset self =
  Repo.list lower None limit offset self.
Proof.
  intros Hoffset Hlimit. split; [| reflexivity].
  rewrite list_unfold. simpl listed. unfold Dict.values at 1.
  rewrite length_map. now rewrite slice_window.
Qed.

Lemma list_without_query_witness :
  Repo.list ascii_lower None 1 1 two_notes =
    (Z.of_nat (List.length two_notes),
     firstn (Z.to_nat 1) (skipn (Z.to_nat 1) (Dict.values two_notes))) /\
  Repo.list ascii_lower (Some "") 1 1 two_notes =
  Repo.list ascii_lower None 1 1 two_notes.
Proof. apply (list_without_query ascii_lower two_notes 1 1); lia. Defined.

(** X2. Consecutive pages join up: the page at [offset] of [limit1]
    notes followed by the page at [offset + limit1] of [limit2] notes is
    the page at [offset] of [limit1 + limit2] notes, with no note
    repeated or skipped, and both calls report the same total. *)
Theorem list_pages_are_adjacent
    (lower : string -> string) (q : option string) (self : Repo.t)
    (offset limit1 limit2 : Z) :
  0 <= offset ->
  0 <= limit1 ->
  0 <= limit2 ->
  (snd (Repo.list lower q limit1 offset self) ++
   snd (Repo.list lower q limit2 (offset + limit1) self))%list =
  snd (Repo.list lower q (limit1 + limit2) offset self) /\
  fst (Repo.list lower q limit1 offset self) =
  fst (Repo.list lower q limit2 (offset + limit1) self).
Proof.
  intros Hoffset H1 H2. rewrite !list_unfold. simpl. split; [| reflexivity].
  rewrite !slice_window by lia.
  replace (Z.to_nat (offset + limit1)) with (Z.to_nat limit1 + Z.to_nat offset)%nat by lia.
  rewrite <- skipn_skipn, firstn_then_firstn. f_equal. lia.
Qed.

Lemma list_pages_are_adjacent_witness :
  (snd (Repo.list ascii_lower None 1 0 two_notes) ++
   snd (Repo.list ascii_lower None 1 (0 + 1) two_notes))%list =
  snd (Repo.list ascii_lower None (1 + 1) 0 two_notes) /\
  fst (Repo.list ascii_lower None 1 0 two_notes) =
  fst (Repo.list ascii_lower None 1 (0 + 1) two_notes).
Proof. apply (list_pages_are_adjacent ascii_lower None two_notes 0 1 1); lia. Defined.

(** X3. Whatever integers are passed as [limit] and [offset], negative
    ones included, the items [list] returns are one unbroken run of the
    filtered notes in their order: [list] never fails, repeats, reorders
    or invents a note, and never returns more notes than its total. *)
Theorem list_returns_a_block
    (lower : string -> string) (q : option string) (self : Repo.t)
    (limit offset : Z) :
  (exists pre post,
     listed lower q self =
     (pre ++ snd (Repo.list lower q limit offset self) ++ post)%list) /\
  Z.of_nat (List.length (snd (Repo.list lower q limit offset self)))
    <= fst (Repo.list lower q limit offset self) /\
  (forall n, In n (snd (Repo.list lower q limit offset self)) ->
     In n (Dict.values self)).
Proof.
  rewrite list_unfold. simpl.
  destruct (slice_is_block (listed lower q self) offset (offset + limit))
    as [pre [post Hblock]].
  split; [now exists pre, post |]. split.
  - rewrite Hblock at 2. rewrite !length_app. lia.
  - intros n Hin.
    assert (Hlisted : In n (listed lower q self)).
    { rewrite Hblock. apply in_or_app. right. apply in_or_app. now left. }
    unfold listed in Hlisted. destruct q as [q'|]; [| exact Hlisted].
    destruct (truthy q'); [| exact Hlisted].
    now apply filter_In in Hlisted as [Hlisted _].
Qed.

(** X4. With a limit that is not negative, [list] returns at most
    [limit] notes, for every offset, negative ones included. *)
Theorem list_respects_limit
    (lower : string -> string) (q : option string) (self : Repo.t)
    (limit offset : Z) :
  0 <= limit ->
  Z.of_nat (List.length (snd (Repo.list lower q limit offset self))) <= limit.
Proof.
  intros Hlimit. rewrite list_unfold. simpl. now apply slice_length_le.
Qed.

Lemma list_respects_limit_witness :
  Z.of_nat (List.length (snd (Repo.list ascii_lower None 1 (-2) two_notes))) <= 1.
Proof. apply (list_respects_limit ascii_lower None two_notes 1 (-2)). lia. Defined.

(** ** More on dictionaries *)

Section DictMore.
Context {V : Type}.
Implicit Types (d : Dict.t V) (k : string) (v : V).

Lemma set_absent k v d :
  Dict.get k d = None -> Dict.set k v d = (d ++ [(k, v)])%list.
Proof.
  induction d as [|[k0 v0] d IH]; simpl; [reflexivity |].
  destruct (String.eqb k k0); [discriminate |].
  intros H. now rewrite IH.
Qed.

Lemma set_set k v1 v2 d : Dict.set k v2 (Dict.set k v1 d) = Dict.set k v2 d.
Proof.
  induction d as [|[k0 v0] d IH]; simpl.
  - now rewrite String.eqb_refl.
  - destruct (String.eqb k k0) eqn:E; simpl.
    + now rewrite String.eqb_refl.
    + now rewrite E, IH.
Qed.

Lemma keys_set_present k v v0 d :
  Dict.get k d = Some v0 -> Dict.keys (Dict.set k v d) = Dict.keys d.
Proof.
  intros H. rewrite keys_set. unfold Dict.contains. now rewrite H.
Qed.

Lemma pop_appended k v d :
  Dict.get k d = None -> Dict.pop k (d ++ [(k, v)])%list = (Some v, d).
Proof.
  induction d as [|[k0 v0] d IH]; simpl.
  - now rewrite String.eqb_refl.
  - destruct (String.eqb k k0); [discriminate |].
    intros H. now rewrite IH.
Qed.

Lemma pop_splits k v d :
  Dict.get k d = Some v ->
  exists pre post,
    d = (pre ++ (k, v) :: post)%list /\
    Dict.get k pre = None /\
    snd (Dict.pop k d) = (pre ++ post)%list.
Proof.
  induction d as [|[k0 v0] d IH]; simpl; [discriminate |].
  destruct (String.eqb_spec k k0) as [-> | Hne].
  - intros [= ->]. now exists [], d.
  - intros H. destruct (IH H) as [pre [post [Hd [Hpre Hpop]]]].
    exists ((k0, v0) :: pre), post. simpl.
    destruct (String.eqb_spec k k0); [contradiction |].
    destruct (Dict.pop k d). simpl in *. subst. auto.
Qed.

Lemma get_of_In k v d : Dict.wf d -> In (k, v) d -> Dict.get k d = Some v.
Proof.
  unfold Dict.wf. induction d as [|[k0 v0] d IH]; simpl; [contradiction |].
  intros Hwf. inversion Hwf as [| ? ? Hnotin Hwf']; subst.
  intros [[= -> ->] | Hin].
  - now rewrite String.eqb_refl.
  - destruct (String.eqb_spec k k0) as [-> | Hne]; [| now apply IH].
    exfalso. apply Hnotin. apply in_map_iff. now exists (k0, v).
Qed.
End DictMore.

(** ** The store as a whole *)

Lemma call_keyed lower r c (self : Repo.t) :
  keyed self -> keyed (fst (call lower r c self)).
Proof.
  intros Hk.
  destruct c as [data | id | q limit offset | id data | id data | id]; simpl.
  - intros k n Hin. apply set_incl in Hin as [Heq | Hin]; [| now apply Hk].
    now injection Heq as -> ->.
  - exact Hk.
  - now destruct (Repo.list lower q limit offset self).
  - destruct (Repo.get id self) as [old|] eqn:E.
    + rewrite (replace_present _ _ _ _ _ E). simpl.
      intros k n Hin. apply set_incl in Hin as [Heq | Hin]; [| now apply Hk].
      now injection Heq as -> ->.
    + now rewrite (replace_absent _ _ _ _ E).
  - destruct (Repo.get id self) as [old|] eqn:E.
    + destruct (update_present (utcnow r) id data self old E) as [new [-> [Hid _]]].
      simpl. intros k n Hin. apply set_incl in Hin as [Heq | Hin]; [| now apply Hk].
      injection Heq as -> ->. rewrite Hid. apply Hk. now apply get_In.
    + now rewrite (update_absent _ _ _ _ E).
  - rewrite delete_spec. simpl. intros k n Hin. apply pop_incl in Hin.
    now apply Hk.
Qed.

Lemma run_keyed lower calls (self : Repo.t) :
  keyed self -> keyed (run lower calls self).
Proof.
  revert self. induction calls as [|[r c] calls IH]; intros self Hk; simpl.
  - exact Hk.
  - apply IH. now apply call_keyed.
Qed.

(** X5. In every store reached from the empty one, by any calls under
    any clock and any drawn identifiers, the ids of the stored notes are
    pairwise distinct and [get] on the id of a stored note returns that
    note. *)
Theorem ids_are_unique
    (lower : string -> string) (calls : list (Reading * Call)) :
  NoDup (map Note.id (Dict.values (run lower calls Repo.init))) /\
  (forall n, In n (Dict.values (run lower calls Repo.init)) ->
     Repo.get (Note.id n) (run lower calls Repo.init) = Some n).
Proof.
  assert (Hwf : Dict.wf (run lower calls Repo.init))
    by (apply run_wf, init_wf).
  assert (Hk : keyed (run lower calls Repo.init))
    by (apply run_keyed; intros k n []).
  set (self := run lower calls Repo.init) in *.
  assert (Hids : map Note.id (Dict.values self) = Dict.keys self).
  { unfold Dict.values, Dict.keys. rewrite map_map.
    apply map_ext_in. intros [k n] Hin. simpl. now apply Hk. }
  split.
  - rewrite Hids. exact Hwf.
  - intros n Hin. unfold Dict.values in Hin.
    apply in_map_iff in Hin as [[k n'] [Heq Hin]]. simpl in Heq. subst n'.
    unfold Repo.get. apply get_of_In; [exact Hwf |].
    now rewrite (Hk k n Hin).
Qed.

(** X6. [create] with an id that is not in the store puts the new note
    after all the others, so it is the last note [list] sees and the
    number of notes grows by one. *)
Theorem create_appends
    (now : Z) (uuid : string) (data : NoteCreate.t) (self : Repo.t) :
  Repo.get uuid self = None ->
  fst (Repo.create now uuid data self) =
    (self ++ [(uuid, snd (Repo.create now uuid data self))])%list /\
  Dict.values (fst (Repo.create now uuid data self)) =
    (Dict.values self ++ [snd (Repo.create now uuid data self)])%list.
Proof.
  unfold Repo.get, Repo.create. simpl. intros Habs.
  rewrite (set_absent _ _ _ Habs). split; [reflexivity |].
  unfold Dict.values. now rewrite map_app.
Qed.

Lemma create_appends_witness :
  fst (Repo.create 12 "id-3" shopping two_notes) =
    (two_notes ++ [("id-3", snd (Repo.create 12 "id-3" shopping two_notes))])%list /\
  Dict.values (fst (Repo.create 12 "id-3" shopping two_notes)) =
    (Dict.values two_notes ++ [snd (Repo.create 12 "id-3" shopping two_notes)])%list.
Proof. apply (create_appends 12 "id-3" shopping two_notes). reflexivity. Defined.

(** X7. [create] does not look for the drawn id in the store: when a
    note is already stored under it, that note is overwritten where it
    stands, its [created_at] included, and the ids of the store and
    their order stay as they were. *)
Theorem create_overwrites_on_collision
    (now : Z) (uuid : string) (data : NoteCreate.t) (self : Repo.t)
    (old : Note.t) :
  Repo.get uuid self = Some old ->
  Dict.keys (fst (Repo.create now uuid data self)) = Dict.keys self /\
  Repo.get uuid (fst (Repo.create now uuid data self)) =
    Some (Note.mk uuid (NoteCreate.title data) (NoteCreate.content data)
                  (NoteCreate.tags data) now now).
Proof.
  unfold Repo.get, Repo.create. simpl. intros Hold. split.
  - now apply keys_set_present with (v0 := old).
  - now rewrite get_set_same, or_list_nil.
Qed.

Lemma create_overwrites_on_collision_witness :
  Dict.keys (fst (Repo.create 12 "id-1" work two_notes)) = Dict.keys two_notes /\
  Repo.get "id-1" (fst (Repo.create 12 "id-1" work two_notes)) =
    Some (Note.mk "id-1" "Work" (Some "finish report") ["job"] 12 12).
Proof.
  apply (create_overwrites_on_collision 12 "id-1" work two_notes
           (Note.mk "id-1" "Shopping" (Some "buy milk") [] 10 10)).
  reflexivity.
Defined.

(** X8. [replace] and [update] never add, remove or move a note: the
    ids of the store and their order are the same after the call,
    whether the id was found or not. *)
Theorem replace_update_keep_order
    (now : Z) (note_id : string) (self : Repo.t) :
  (forall data,
     Dict.keys (fst (Repo.replace now note_id data self)) = Dict.keys self) /\
  (forall data,
     Dict.keys (fst (Repo.update now note_id data self)) = Dict.keys self).
Proof.
  split; intros data; destruct (Repo.get note_id self) as [old|] eqn:E.
  - rewrite (replace_present _ _ _ _ _ E). simpl.
    now apply keys_set_present with (v0 := old).
  - now rewrite (replace_absent _ _ _ _ E).
  - destruct (update_present now note_id data self old E) as [new [-> _]].
    simpl. now apply keys_set_present with (v0 := old).
  - now rewrite (update_absent _ _ _ _ E).
Qed.

(** X9. [delete] of a stored id takes out that one entry and leaves the
    entries before and after it in place. *)
Theorem delete_removes_one_entry
    (note_id : string) (self : Repo.t) (n : Note.t) :
  Repo.get note_id self = Some n ->
  exists pre post,
    self = (pre ++ (note_id, n) :: post)%list /\
    Repo.delete note_id self = ((pre ++ post)%list, true).
Proof.
  unfold Repo.get. intros Hn.
  destruct (pop_splits _ _ _ Hn) as [pre [post [Hself [_ Hpop]]]].
  exists pre, post. split; [exact Hself |].
  now rewrite delete_spec, Hn, Hpop.
Qed.

Lemma delete_removes_one_entry_witness :
  exists pre post,
    two_notes =
      (pre ++ ("id-1", Note.mk "id-1" "Shopping" (Some "buy milk") [] 10 10)
           :: post)%list /\
    Repo.delete "id-1" two_notes = ((pre ++ post)%list, true).
Proof.
  apply (delete_removes_one_entry "id-1" two_notes
           (Note.mk "id-1" "Shopping" (Some "buy milk") [] 10 10)).
  reflexivity.
Defined.

(** X10. Creating a note under a new id and deleting it again gives
    back the store as it was, and the delete reports a removal. *)
Theorem create_then_delete
    (now : Z) (uuid : string) (data : NoteCreate.t) (self : Repo.t) :
  Repo.get uuid self = None ->
  Repo.delete uuid (fst (Repo.create now uuid data self)) = (self, true).
Proof.
  unfold Repo.get, Repo.create, Repo.delete. simpl. intros Habs.
  rewrite (set_absent _ _ _ Habs). now rewrite (pop_appended _ _ _ Habs).
Qed.

Lemma create_then_delete_witness :
  Repo.delete "id-3" (fst (Repo.create 12 "id-3" shopping two_notes))
  = (two_notes, true).
Proof. apply (create_then_delete 12 "id-3" shopping two_notes). reflexivity. Defined.

(** X11. The last full write wins: a [replace] gives the same store and
    the same note whether or not the note was updated or replaced just
    before it, whatever those earlier payloads and clock readings
    were. *)
Theorem replace_overrides_earlier_writes
    (now0 now : Z) (note_id : string) (data : NoteCreate.t) (self : Repo.t) :
  (forall earlier,
     Repo.replace now note_id data (fst (Repo.update now0 note_id earlier self))
     = Repo.replace now note_id data self) /\
  (forall earlier,
     Repo.replace now note_id data (fst (Repo.replace now0 note_id earlier self))
     = Repo.replace now note_id data self).
Proof.
  split; intros earlier; destruct (Repo.get note_id self) as [old|] eqn:E.
  - destruct (update_present now0 note_id earlier self old E)
      as [mid [-> [_ [_ [_ [_ [Hcreated _]]]]]]]. simpl.
    rewrite (replace_present now note_id data _ mid)
      by (unfold Repo.get; apply get_set_same).
    rewrite (replace_present now note_id data self old E).
    cbv zeta. now rewrite set_set, Hcreated.
  - now rewrite (update_absent _ _ _ _ E).
  - rewrite (replace_present now0 note_id earlier self old E). cbv zeta. simpl fst.
    rewrite (replace_present now note_id data _
               (Note.mk note_id (NoteCreate.title earlier) (NoteCreate.content earlier)
                        (NoteCreate.tags earlier) (Note.created_at old) now0))
      by (unfold Repo.get; apply get_set_same).
    rewrite (replace_present now note_id data self old E).
    cbv zeta. simpl. now rewrite set_set.
  - now rewrite (replace_absent _ _ _ _ E).
Qed.

(** X12. Two partial updates in a row amount to one: updating with
    [first] and then with [second] gives the store and the note that a
    single update gives whose payload takes each field from [second] if
    it has it and else from [first]. *)
Theorem update_twice_is_update_merged
    (now0 now : Z) (note_id : string) (first second : NoteUpdate.t)
    (self : Repo.t) :
  Repo.update now note_id second (fst (Repo.update now0 note_id first self))
  = Repo.update now note_id (merged first second) self.
Proof.
  destruct (Repo.get note_id self) as [old|] eqn:E.
  - unfold Repo.get in E. unfold Repo.update at 2 3, Dict.contains.
    rewrite E. simpl.
    unfold Repo.update, Dict.contains. rewrite get_set_same. simpl.
    rewrite set_set. unfold merged, or_else. simpl.
    destruct (NoteUpdate.title second), (NoteUpdate.content second),
      (NoteUpdate.tags second); reflexivity.
  - rewrite (update_absent now0 _ _ _ E). simpl.
    now rewrite !(update_absent now _ _ _ E).
Qed.

(** Calls that spare an entry keep its [created_at]. *)
Lemma call_keeps_created_at lower r c (self : Repo.t) k old :
  Repo.get k self = Some old ->
  spares k (r, c) ->
  exists n,
    Repo.get k (fst (call lower r c self)) = Some n /\
    Note.created_at n = Note.created_at old.
Proof.
  unfold spares. intros Hold Hsp. unfold Repo.get in *.
  destruct c as [data | id | q limit offset | id data | id data | id];
    simpl in *.
  - exists old. split; [| reflexivity].
    rewrite get_set_other; [exact Hold | congruence].
  - now exists old.
  - destruct (Repo.list lower q limit offset self). now exists old.
  - destruct (String.eqb_spec id k) as [-> | Hne].
    + rewrite (replace_present _ _ _ _ _ Hold). simpl. rewrite get_set_same.
      eexists. split; reflexivity.
    + exists old. split; [| reflexivity].
      destruct (Repo.get id self) as [other|] eqn:E.
      * rewrite (replace_present _ _ _ _ _ E). simpl.
        rewrite get_set_other; [exact Hold | congruence].
      * now rewrite (replace_absent _ _ _ _ E).
  - destruct (String.eqb_spec id k) as [-> | Hne].
    + destruct (update_present (utcnow r) k data self old Hold)
        as [new [-> [_ [_ [_ [_ [Hcreated _]]]]]]]. simpl.
      rewrite get_set_same. now exists new.
    + exists old. split; [| reflexivity].
      destruct (Repo.get id self) as [other|] eqn:E.
      * destruct (update_present (utcnow r) id data self other E) as [new [-> _]].
        simpl. rewrite get_set_other; [exact Hold | congruence].
      * now rewrite (update_absent _ _ _ _ E).
  - exists old. split; [| reflexivity].
    rewrite delete_spec. simpl. rewrite get_pop_other; [exact Hold | congruence].
Qed.

(** X13. [created_at] is written once: through any calls that neither
    delete a note nor create another one over its id, and under any
    clock, the note stays in the store with the [created_at] it had,
    however often it is replaced or updated. *)
Theorem created_at_is_kept
    (lower : string -> string) (calls : list (Reading * Call))
    (self : Repo.t) (note_id : string) (old : Note.t) :
  Repo.get note_id self = Some old ->
  Forall (spares note_id) calls ->
  exists n,
    Repo.get note_id (run lower calls self) = Some n /\
    Note.created_at n = Note.created_at old.
Proof.
  revert self old. induction calls as [|[r c] calls IH]; intros self old Hold Hall.
  - now exists old.
  - inversion Hall as [| ? ? Hsp Hrest]; subst. simpl.
    destruct (call_keeps_created_at lower r c self note_id old Hold Hsp)
      as [mid [Hmid Hcreated]].
    destruct (IH _ mid Hmid Hrest) as [n [Hn Hcreated']].
    exists n. split; [exact Hn | congruence].
Qed.

Lemma created_at_is_kept_witness :
  exists n,
    Repo.get "id-1"
      (run ascii_lower
         [ ({| utcnow := 20; uuid4 := "id-3" |}, Replace "id-1" work);
           ({| utcnow := 21; uuid4 := "id-4" |}, Delete "id-2");
           ({| utcnow := 22; uuid4 := "id-5" |},
            Update "id-1" (NoteUpdate.mk (Some "Job") None None [FTitle])) ]
         two_notes) = Some n /\
    Note.created_at n =
    Note.created_at (Note.mk "id-1" "Shopping" (Some "buy milk") [] 10 10).
Proof.
  apply (created_at_is_kept ascii_lower _ two_notes "id-1"
           (Note.mk "id-1" "Shopping" (Some "buy milk") [] 10 10)).
  - reflexivity.
  - repeat constructor; simpl; discriminate.
Defined.




(** ** Settings *)

Lemma split_parts_join (sep : ascii) (s : string) :
  join (String sep "") (fst (split_parts sep s) :: snd (split_parts sep s)) = s.
Proof.
  induction s as [|c s IH]; [reflexivity |].
  simpl split_parts. destruct (split_parts sep s) as [p ps]. simpl fst in *.
  simpl snd in *. destruct (Ascii.eqb_spec c sep) as [-> | Hne].
  - simpl fst. simpl snd. change (join (String sep "") ("" :: p :: ps))
      with ("" ++ String sep "" ++ join (String sep "") (p :: ps)).
    now rewrite IH.
  - simpl fst. simpl snd. destruct ps as [|p' ps].
    + simpl in *. now rewrite IH.
    + change (join (String sep "") (String c p :: p' :: ps))
        with (String c (p ++ String sep "" ++ join (String sep "") (p' :: ps))).
      f_equal. exact IH.
Qed.

Lemma split_parts_no_sep (sep : ascii) (s : string) :
  Forall (fun p => has_char sep p = false)
         (fst (split_parts sep s) :: snd (split_parts sep s)).
Proof.
  induction s as [|c s IH]; [repeat constructor |].
  simpl split_parts. destruct (split_parts sep s) as [p ps]. simpl in IH.
  destruct (Ascii.eqb c sep) eqn:E; simpl.
  - constructor; [reflexivity | exact IH].
  - inversion IH as [| ? ? Hp Hps]; subst.
    constructor; [| exact Hps]. simpl. now rewrite E, Hp.
Qed.

(** X15. [cors_allow_origins] is never empty.  It is [["*"]] when
    [CORS_ALLOW_ORIGINS] is unset or empty; otherwise it holds the
    pieces of the value between its commas, untrimmed: no piece contains
    a comma and joining the pieces with commas gives the value back. *)
Theorem cors_allow_origins_spec (environ : Environ) :
  AppSettings.cors_allow_origins (AppSettings.init environ) <> [] /\
  (truthy_opt (environ "CORS_ALLOW_ORIGINS") = false ->
     AppSettings.cors_allow_origins (AppSettings.init environ) = ["*"]) /\
  (forall value,
     environ "CORS_ALLOW_ORIGINS" = Some value ->
     value <> "" ->
     join "," (AppSettings.cors_allow_origins (AppSettings.init environ)) = value /\
     Forall (fun origin => has_char "," origin = false)
            (AppSettings.cors_allow_origins (AppSettings.init environ))).
Proof.
  unfold AppSettings.init, getenv, getenv_or. simpl.
  split; [| split].
  - destruct (truthy_opt (environ "CORS_ALLOW_ORIGINS")); [| discriminate].
    unfold split. now destruct (split_parts _ _).
  - now intros ->.
  - intros value Hvalue Hne. rewrite Hvalue. simpl.
    destruct value as [|c value]; [congruence |]. cbv iota beta.
    unfold split.
    pose proof (split_parts_join "," (String c value)) as Hjoin.
    pose proof (split_parts_no_sep "," (String c value)) as Hsep.
    destruct (split_parts "," (String c value)) as [p ps]. now split.
Qed.

Lemma cors_allow_origins_spec_witness :
  join ","
    (AppSettings.cors_allow_origins
       (AppSettings.init
          (fun key => if String.eqb key "CORS_ALLOW_ORIGINS"
                      then Some "http://a.test, http://b.test" else None)))
  = "http://a.test, http://b.test".
Proof.
  destruct (cors_allow_origins_spec
              (fun key => if String.eqb key "CORS_ALLOW_ORIGINS"
                          then Some "http://a.test, http://b.test" else None))
    as [_ [_ Hset]].
  apply (Hset "http://a.test, http://b.test" eq_refl). discriminate.
Defined.

Lemma settings_seen_cached (environs : list Environ) (cached : AppSettings.t) :
  settings_seen environs (Some cached) = repeat cached (List.length environs).
Proof.
  induction environs as [|environ environs IH]; simpl; [reflexivity |].
  now rewrite IH.
Qed.

(** X16. The settings are read once: however the environment changes
    between calls, every call of [get_app_settings] returns the settings
    built from the environment of the first call. *)
Theorem settings_are_read_once (first : Environ) (later : list Environ) :
  settings_seen (first :: later) None =
  repeat (AppSettings.init first) (S (List.length later)).
Proof. simpl. now rewrite settings_seen_cached. Qed.

(** ** The service and the handlers *)

(** X17. A service built without a repository picks the database
    placeholder exactly when the database URL of the settings is not
    empty, and the in-memory repository, empty, otherwise; the settings
    are the cached ones when there are any, whatever [NOTES_DB_URL] is
    by then, and else those of the environment.  A repository that is
    passed in is used as it is. *)
Theorem service_selects_repository
    (environ : Environ) (cached : option AppSettings.t) :
  let settings :=
    match cached with
    | Some s => s
    | None => AppSettings.init environ
    end in
  (AppSettings.db_url settings <> "" ->
     snd (NotesService.init environ cached None) =
     Database
       (DatabaseNotesRepository.mk
          (AppSettings.db_url settings) (AppSettings.db_user settings)
          (AppSettings.db_password settings) (AppSettings.db_name settings)
          (AppSettings.db_port settings))) /\
  (AppSettings.db_url settings = "" ->
     snd (NotesService.init environ cached None) = InMemory Repo.init) /\
  fst (NotesService.init environ cached None) = Some settings /\
  (forall given, NotesService.init environ cached (Some given) = (cached, given)).
Proof.
  intros settings. unfold NotesService.init, DatabaseNotesRepository.init.
  assert (Hget : get_app_settings environ cached = (Some settings, settings))
    by (unfold settings; now destruct cached).
  rewrite Hget. simpl get_app_settings.
  split; [| split; [| split]].
  - intros Hurl. destruct (AppSettings.db_url settings); [congruence | reflexivity].
  - now intros ->.
  - now destruct (truthy (AppSettings.db_url settings)).
  - reflexivity.
Qed.

Lemma service_selects_repository_witness :
  snd (NotesService.init
         (fun key => if String.eqb key "NOTES_DB_URL" then Some "db://notes" else None)
         None None) =
  Database (DatabaseNotesRepository.mk "db://notes" "" "" "" "") /\
  snd (NotesService.init (fun _ => None) None None) = InMemory Repo.init.
Proof.
  split.
  - destruct (service_selects_repository
                (fun key => if String.eqb key "NOTES_DB_URL" then Some "db://notes"
                            else None) None) as [Hdb _].
    apply Hdb. discriminate.
  - destruct (service_selects_repository (fun _ => None) None) as [_ [Hmem _]].
    apply Hmem. reflexivity.
Defined.

(** X18. With a database URL in the environment of a fresh process,
    every handler raises [NotImplementedError] and nothing else happens:
    no note can be created, read, replaced, updated or deleted. *)
Theorem database_url_disables_handlers (environ : Environ) (url : string) :
  environ "NOTES_DB_URL" = Some url ->
  url <> "" ->
  let service := snd (NotesService.init environ None None) in
  (forall now uuid payload,
     Router.create_note now uuid payload service =
     (service, inl DatabaseNotesRepository.not_configured)) /\
  (forall note_id,
     Router.get_note note_id service =
     inl DatabaseNotesRepository.not_configured) /\
  (forall now note_id payload,
     Router.replace_note now note_id payload service =
     (service, inl DatabaseNotesRepository.not_configured)) /\
  (forall now note_id payload,
     Router.update_note now note_id payload service =
     (service, inl DatabaseNotesRepository.not_configured)) /\
  (forall note_id,
     Router.delete_note note_id service =
     (service, inl DatabaseNotesRepository.not_configured)).
Proof.
  intros Hurl Hne service.
  destruct (service_selects_repository environ None) as [Hdb _].
  assert (Hservice : exists db, service = Database db).
  { eexists. apply Hdb. unfold AppSettings.init, getenv_or. simpl.
    now rewrite Hurl. }
  destruct Hservice as [db ->]. repeat split.
Qed.

Lemma database_url_disables_handlers_witness :
  Router.get_note "id-1"
    (snd (NotesService.init
            (fun key => if String.eqb key "NOTES_DB_URL" then Some "db://notes"
                        else None) None None))
  = inl (NotImplementedError "Database integration not configured.").
Proof.
  destruct (database_url_disables_handlers
              (fun key => if String.eqb key "NOTES_DB_URL" then Some "db://notes"
                          else None) "db://notes" eq_refl)
    as [_ [Hget _]].
  - discriminate.
  - exact (Hget "id-1").
Defined.







(** X21. After the delete handler has removed a note, a get, a put, a
    patch and a second delete on that id all raise
    [HTTPException(404, "Note not found")], and leave the store as the
    first delete left it. *)
Theorem delete_then_not_found
    (note_id : string) (repo : Repo.t) (n : Note.t) :
  Dict.wf repo ->
  Repo.get note_id repo = Some n ->
  let after := fst (Router.delete_note note_id (InMemory repo)) in
  snd (Router.delete_note note_id (InMemory repo)) = inr tt /\
  Router.get_note note_id after = inl (HTTPException 404 "Note not found") /\
  (forall now payload,
     Router.replace_note now note_id payload after =
     (after, inl (HTTPException 404 "Note not found"))) /\
  (forall now payload,
     Router.update_note now note_id payload after =
     (after, inl (HTTPException 404 "Note not found"))) /\
  Router.delete_note note_id after =
    (after, inl (HTTPException 404 "Note not found")).
Proof.
  intros Hwf Hn after.
  assert (Hafter : after = InMemory (snd (Dict.pop note_id repo))).
  { unfold after, Router.delete_note, NotesService.delete_note.
    rewrite delete_spec. reflexivity. }
  assert (Hgone : Repo.get note_id (snd (Dict.pop note_id repo)) = None)
    by (unfold Repo.get; now apply get_pop_same).
  split.
  - unfold Router.delete_note, NotesService.delete_note.
    rewrite delete_spec. unfold Repo.get in Hn. now rewrite Hn.
  - rewrite Hafter. split; [| split; [| split]].
    + unfold Router.get_note, NotesService.get_note. now rewrite Hgone.
    + intros now payload.
      unfold Router.replace_note, NotesService.replace_note.
      now rewrite (replace_absent _ _ _ _ Hgone).
    + intros now payload.
      unfold Router.update_note, NotesService.update_note.
      now rewrite (update_absent _ _ _ _ Hgone).
    + unfold Router.delete_note, NotesService.delete_note.
      now rewrite (delete_absent _ _ Hgone).
Qed.

Lemma delete_then_not_found_witness :
  snd (Router.delete_note "id-2" (InMemory two_notes)) = inr tt /\
  Router.get_note "id-2" (fst (Router.delete_note "id-2" (InMemory two_notes)))
  = inl (HTTPException 404 "Note not found").
Proof.
  destruct (delete_then_not_found "id-2" two_notes
              (Note.mk "id-2" "Work" (Some "finish report") ["job"] 11 11)
              wf_two_notes eq_refl)
    as [Hdel [Hget _]].
  split; [exact Hdel | exact Hget].
Defined.
